(** * remote_postgres_installer: a shallow embedding and its properties

    The program connects to two hosts over SSH, samples their load,
    chooses the least loaded one, detects its operating system, installs
    and configures PostgreSQL there and checks that the server answers.

    The embedding follows [remote_postgres_installer.py]:
    - a Python [str] is a [string], the bytes of its UTF-8 text.
      [split] and [strip] know the blanks of [str.isspace] by their
      encodings.  [lower] maps A-Z to a-z: [str.lower] also changes
      letters outside ASCII, but the only ones it sends to text with an
      ASCII letter are U+0130 (to i followed by U+0307) and U+212A (to
      k), and neither can complete one of the words the program looks
      for (debian, centos, almalinux, rhel, failed, error: no k, and no
      word ends in i), so every [in] test of the program has the value
      it has in Python;
    - a Python [float] is a [pyfloat]: NaN, the two infinities, and the
      finite doubles, each taken as the rational it denotes, which
      orders them as [<] does.  The built-in [float] applied to a string
      is a field of the transport, not written out here;
    - a [dict] is an association list in insertion order;
    - the remote hosts are a type class: a world that answers connection
      attempts and commands, threaded through a state monad together
      with the trace of what the program did to it.  Exceptions that
      the source catches are outcomes of the world; the ones it lets
      escape are the [inl] results;
    - progress lines written with [print] are not part of the model;
    - [parser.parse_args()] is a collaborator too: it hands over the
      arguments or ends the process with a status. *)

From Stdlib Require Import String Ascii List Bool Arith NArith ZArith QArith Lia.
Import ListNotations.
Local Close Scope Q_scope.
Local Open Scope list_scope.
Local Open Scope string_scope.

(** ** Python built-ins used by the program *)

Module Py.

(** *** Strings *)

(** Characters the source writes with an escape. *)
Definition dq : string := String "034"%char EmptyString.
Definition nl : string := String "010"%char EmptyString.

(** [bool(s)]: a string is true when it is not empty. *)
Definition truthy (s : string) : bool :=
  match s with
  | EmptyString => false
  | String _ _ => true
  end.

Definition is_upper (c : ascii) : bool :=
  let n := N_of_ascii c in ((65 <=? n) && (n <=? 90))%N.

Definition is_lower (c : ascii) : bool :=
  let n := N_of_ascii c in ((97 <=? n) && (n <=? 122))%N.

Definition lower_char (c : ascii) : ascii :=
  if is_upper c then ascii_of_N (N_of_ascii c + 32) else c.

Definition upper_char (c : ascii) : ascii :=
  if is_lower c then ascii_of_N (N_of_ascii c - 32) else c.

(** [s.lower()] *)
Fixpoint lower (s : string) : string :=
  match s with
  | EmptyString => EmptyString
  | String c s' => String (lower_char c) (lower s')
  end.

(** [s.startswith(p)] *)
Fixpoint startswith (p s : string) : bool :=
  match p with
  | EmptyString => true
  | String a p' =>
      match s with
      | EmptyString => false
      | String b s' => Ascii.eqb a b && startswith p' s'
      end
  end.

(** [needle in hay] *)
Fixpoint contains (needle hay : string) : bool :=
  startswith needle hay ||
  match hay with
  | EmptyString => false
  | String _ hay' => contains needle hay'
  end.

(** The ASCII characters for which [str.isspace] holds. *)
Definition is_space (c : ascii) : bool :=
  let n := N_of_ascii c in
  (((9 <=? n) && (n <=? 13)) || ((28 <=? n) && (n <=? 32)))%N.

Fixpoint rev_string (acc s : string) : string :=
  match s with
  | EmptyString => acc
  | String c s' => rev_string (String c acc) s'
  end.

(** The code points for which [str.isspace] holds: the characters
    [str.split()] splits at and [str.strip()] removes. *)
Definition whitespace_code_points : list N :=
  [ 9; 10; 11; 12; 13; 28; 29; 30; 31; 32; 133; 160; 5760;
    8192; 8193; 8194; 8195; 8196; 8197; 8198; 8199; 8200; 8201; 8202;
    8232; 8233; 8239; 8287; 12288 ]%N.

(** The UTF-8 encoding of a code point below U+10000. *)
Definition utf8 (n : N) : string :=
  if (n <? 128)%N then String (ascii_of_N n) EmptyString
  else if (n <? 2048)%N then
    String (ascii_of_N (192 + n / 64))
      (String (ascii_of_N (128 + n mod 64)) EmptyString)
  else
    String (ascii_of_N (224 + n / 4096))
      (String (ascii_of_N (128 + (n / 64) mod 64))
         (String (ascii_of_N (128 + n mod 64)) EmptyString)).

(** The blank characters, as they stand in a text. *)
Definition blanks : list string := map utf8 whitespace_code_points.

(** The number of bytes of the blank character that [s] starts with, 0
    when it starts with none.  A blank begins with a byte that is no
    continuation byte, so it is found wherever it stands in the text. *)
Definition blank_len (s : string) : nat :=
  match find (fun b => startswith b s) blanks with
  | Some b => String.length b
  | None => 0
  end.

(** [s.split()]: the maximal runs of non-blank characters.  [cur] holds
    the run being read, last byte first; [skip] counts the bytes still
    to pass of the blank being read. *)
Fixpoint split_ws_from (skip : nat) (cur s : string) : list string :=
  match s with
  | EmptyString =>
      if truthy cur then [rev_string EmptyString cur] else []
  | String c s' =>
      match skip with
      | S k => split_ws_from k cur s'
      | O =>
          match blank_len s with
          | S k =>
              if truthy cur
              then rev_string EmptyString cur :: split_ws_from k EmptyString s'
              else split_ws_from k EmptyString s'
          | O => split_ws_from 0 (String c cur) s'
          end
      end
  end.

Definition split_ws (s : string) : list string :=
  split_ws_from 0 EmptyString s.

(** [s.split(sep)] for a one-character separator: never empty. *)
Fixpoint split_on_from (sep : ascii) (cur s : string) : list string :=
  match s with
  | EmptyString => [rev_string EmptyString cur]
  | String c s' =>
      if Ascii.eqb c sep
      then rev_string EmptyString cur :: split_on_from sep EmptyString s'
      else split_on_from sep (String c cur) s'
  end.

Definition split_on (sep : ascii) (s : string) : list string :=
  split_on_from sep EmptyString s.

(** [s.lstrip()] *)
Fixpoint lstrip_skip (skip : nat) (s : string) : string :=
  match s with
  | EmptyString => EmptyString
  | String c s' =>
      match skip with
      | S k => lstrip_skip k s'
      | O =>
          match blank_len s with
          | S k => lstrip_skip k s'
          | O => s
          end
      end
  end.

Definition lstrip (s : string) : string := lstrip_skip 0 s.

(** [s.rstrip()]: the text is cut where nothing but blanks follows. *)
Fixpoint rstrip (s : string) : string :=
  match s with
  | EmptyString => EmptyString
  | String c s' =>
      match lstrip s with
      | EmptyString => EmptyString
      | String _ _ => String c (rstrip s')
      end
  end.

(** [s.strip()] *)
Definition strip (s : string) : string := rstrip (lstrip s).

(** *** Floats *)

(** A Python float.  [PInf false] is [float('inf')], [PInf true] is
    [float('-inf')]; [PFin q] is the finite double whose value is [q]
    (both zeros are [PFin 0]: they compare equal). *)
Inductive pyfloat : Type :=
| PNaN
| PInf (negative : bool)
| PFin (q : Q).

Definition inf : pyfloat := PInf false.

Definition Qltb (x y : Q) : bool := negb (Qle_bool y x).

(** [x < y] on floats: false as soon as one side is NaN. *)
Definition float_lt (x y : pyfloat) : bool :=
  match x, y with
  | PNaN, _ | _, PNaN => false
  | PInf true, PInf true => false
  | PInf true, _ => true
  | _, PInf true => false
  | PInf false, _ => false
  | PFin _, PInf false => true
  | PFin a, PFin b => Qltb a b
  end.

(** [x <= y] on floats. *)
Definition float_le (x y : pyfloat) : bool :=
  match x, y with
  | PNaN, _ | _, PNaN => false
  | PInf true, _ => true
  | _, PInf true => false
  | _, PInf false => true
  | PInf false, PFin _ => false
  | PFin a, PFin b => Qle_bool a b
  end.

Definition is_nan (x : pyfloat) : bool :=
  match x with PNaN => true | _ => false end.

(** *** Dictionaries *)

(** A [dict] with string keys: the items in insertion order. *)
Definition dict (V : Type) : Type := list (string * V).

Section Dict.
Context {V : Type}.

(** [d.get(k)] *)
Fixpoint dict_get (d : dict V) (k : string) : option V :=
  match d with
  | [] => None
  | (k', v) :: d' => if String.eqb k' k then Some v else dict_get d' k
  end.

(** [d[k] = v]: an existing key keeps its place. *)
Fixpoint dict_set (d : dict V) (k : string) (v : V) : dict V :=
  match d with
  | [] => [(k, v)]
  | (k', v') :: d' =>
      if String.eqb k' k then (k', v) :: d' else (k', v') :: dict_set d' k v
  end.

(** [iter(d)], [d.keys()] *)
Definition dict_keys (d : dict V) : list string := map fst d.

(** [d.values()] *)
Definition dict_values (d : dict V) : list V := map snd d.

(** [bool(d)] *)
Definition dict_truthy (d : dict V) : bool :=
  match d with [] => false | _ :: _ => true end.
End Dict.

(** *** [min(iterable, key=f)] *)

(** The loop of [min]: the running best is replaced only by an item
    whose key is strictly smaller.  The key function here is [dict.get],
    whose result is [None] for an absent key; comparing [None] with a
    float raises [TypeError], which is the [None] result of the loop. *)
Fixpoint min_loop (key : string -> option pyfloat)
    (best : string) (bestv : pyfloat) (rest : list string) : option string :=
  match rest with
  | [] => Some best
  | item :: rest' =>
      match key item with
      | None => None
      | Some v =>
          if float_lt v bestv
          then min_loop key item v rest'
          else min_loop key best bestv rest'
      end
  end.

(** [min(items, key=key)]; [None] stands for the exception raised on an
    empty sequence ([ValueError]) or, with more than one item, on a
    [None] key ([TypeError]). *)
Definition min_by (key : string -> option pyfloat) (items : list string)
  : option string :=
  match items with
  | [] => None
  | [only] => Some only
  | first :: rest =>
      match key first with
      | None => None
      | Some v => min_loop key first v rest
      end
  end.

End Py.

(** ** The installer *)

Module Installer.
Import Py.

(** An [SSHClient] after a successful [connect]: every call of
    [get_ssh_client] builds a new object, told apart here by a serial
    number, bound to the host it was opened for. *)
Record client : Type := { session_id : nat; peer : string }.

(** What [client.connect] does.  [ConnRefused] stands for the three
    exceptions [get_ssh_client] catches ([NoValidConnectionsError],
    [AuthenticationException], [socket.error]); [ConnError] for any
    other one, which the program does not catch. *)
Inductive conn_outcome : Type := ConnOk | ConnRefused | ConnError.

(** What [client.exec_command] and the two reads do: the decoded output
    and error streams, or an exception with its message. *)
Inductive exec_outcome : Type :=
| ExecOk (out err : string)
| ExecRaise (msg : string).

(** The collaborators of the program: the remote hosts reached through
    paramiko, and the built-in [float] applied to a string ([None] when
    it raises [ValueError]). *)
Class Transport : Type := {
  World : Type;
  connect : World -> string -> conn_outcome * World;
  exec_command : World -> client -> string -> exec_outcome * World;
  py_float : string -> option pyfloat
}.

Inductive exn : Type := IndexError | ValueError | KeyError | ConnectionException.

(** What the program did to the outside, in order. *)
Inductive event : Type :=
| Opened (c : client)
| Ran (c : client) (command out err : string)
| Closed (c : client).

Section Program.
Context `{T : Transport}.

Record state : Type := {
  world : World;
  next_session : nat;
  trace : list event
}.

Definition M (A : Type) : Type := state -> A * state.

Definition ret {A : Type} (a : A) : M A := fun st => (a, st).

Definition bind {A B : Type} (m : M A) (k : A -> M B) : M B :=
  fun st => let (a, st') := m st in k a st'.

Definition emit (e : event) (w : World) (st : state) : state :=
  {| world := w; next_session := next_session st;
     trace := (trace st ++ [e])%list |}.
End Program.

Declare Scope installer_scope.
Delimit Scope installer_scope with inst.
Notation "x <- m ;; k" := (bind m (fun x => k))
  (at level 61, m at next level, right associativity) : installer_scope.
Notation "' pat <- m ;; k" := (bind m (fun x => match x with pat => k end))
  (at level 61, pat pattern, m at next level, right associativity)
  : installer_scope.
Local Open Scope installer_scope.

(** The text [execute_command] puts before the message of an exception. *)
Definition exec_error_prefix : string := "Ошибка выполнения команды: ".

Definition loadavg_cmd : string := "cat /proc/loadavg".
Definition os_release_cmd : string := "cat /etc/os-release".
Definition which_apt_cmd : string := "which apt-get".
Definition which_yum_cmd : string := "which yum".

Definition debian_commands : list string :=
  [ "apt-get update";
    "apt-get install -y postgresql postgresql-contrib";
    "systemctl status postgresql" ].

Definition centos_commands : list string :=
  [ "dnf install -y https://download.postgresql.org/pub/repos/yum/reporpms/EL-8-x86_64/pgdg-redhat-repo-latest.noarch.rpm";
    "dnf -qy module disable postgresql";
    "dnf install -y postgresql14-server";
    "systemctl enable postgresql-14";
    "/usr/pgsql-14/bin/postgresql-14-setup initdb";
    "systemctl start postgresql-14";
    "systemctl status postgresql-14" ].

(** The commands of [configure_postgresql], built as its f-strings are. *)
Definition sed_cmd (postgresql_conf_path : string) : string :=
  "sed -i " ++ dq ++ "s/#listen_addresses = 'localhost'/listen_addresses = '*'/g"
    ++ dq ++ " " ++ postgresql_conf_path.

Definition backup_cmd (pg_hba_path : string) : string :=
  "cp " ++ pg_hba_path ++ " " ++ pg_hba_path ++ ".bak".

Definition append_cmd (pg_hba_path other_host : string) : string :=
  "cat <<EOF >> " ++ pg_hba_path ++ nl
  ++ "# Allow user " ++ dq ++ "student" ++ dq ++ " from the other server" ++ nl
  ++ "host    all             student         " ++ other_host
  ++ "/32            md5" ++ nl
  ++ "# Allow connections from all addresses" ++ nl
  ++ "host    all             all             0.0.0.0/0                 md5" ++ nl
  ++ "EOF".

Definition create_user_cmd : string :=
  nl
  ++ "su - postgres -c " ++ dq ++ "psql -c \" ++ dq
  ++ "CREATE USER student WITH PASSWORD 'StrongPassword123!';\" ++ dq ++ dq
  ++ " " ++ nl
  ++ "su - postgres -c " ++ dq ++ "psql -c \" ++ dq
  ++ "ALTER USER student CREATEDB;\" ++ dq ++ dq ++ " " ++ nl.

Definition test_cmd : string :=
  "su - postgres -c " ++ dq ++ "psql -c \" ++ dq
  ++ "SELECT 1 as test_connection;\" ++ dq ++ dq ++ " ".

(** The failure test of an install step. *)
Definition install_step_failed (stderr : string) : bool :=
  contains "failed" (lower stderr) || contains "error" (lower stderr).

(** The success test of a [which] probe. *)
Definition which_found (stdout : string) : bool :=
  truthy stdout && negb (startswith "which:" stdout).

Section Program.
Context `{T : Transport}.

(** [get_ssh_client]: [inr (Some c)] for the client, [inr None] for
    the [None] returned after a caught exception, [inl _] for an
    exception that escapes. *)
Definition get_ssh_client (host : string) : M (exn + option client) :=
  fun st =>
    match connect (world st) host with
    | (ConnOk, w) =>
        let c := {| session_id := next_session st; peer := host |} in
        (inr (Some c),
         {| world := w; next_session := S (next_session st);
            trace := (trace st ++ [Opened c])%list |})
    | (ConnRefused, w) =>
        (inr None,
         {| world := w; next_session := next_session st; trace := trace st |})
    | (ConnError, w) =>
        (inl ConnectionException,
         {| world := w; next_session := next_session st; trace := trace st |})
    end.

(** [execute_command]: any exception becomes an empty output and an
    error text. *)
Definition execute_command (c : client) (command : string)
  : M (string * string) :=
  fun st =>
    let (r, w) := exec_command (world st) c command in
    let res := match r with
               | ExecOk out err => (out, err)
               | ExecRaise msg => (EmptyString, exec_error_prefix ++ msg)
               end in
    (res, emit (Ran c command (fst res) (snd res)) w st).

(** [client.close()] *)
Definition close (c : client) : M unit :=
  fun st => (tt, emit (Closed c) (world st) st).

(** [get_host_load]: [IndexError] from [split()[0]] and [ValueError]
    from [float] are caught and give infinity, as an empty output does. *)
Definition get_host_load (c : client) : M pyfloat :=
  '(stdout, _) <- execute_command c loadavg_cmd ;;
  ret (if truthy stdout then
         match split_ws stdout with
         | [] => inf
         | tok :: _ =>
             match py_float tok with
             | Some load_avg => load_avg
             | None => inf
             end
         end
       else inf).

Definition detect_os (c : client) : M string :=
  '(stdout, _) <- execute_command c os_release_cmd ;;
  if contains "debian" (lower stdout) then ret "debian"
  else if contains "centos" (lower stdout)
          || contains "almalinux" (lower stdout)
          || contains "rhel" (lower stdout) then ret "centos"
  else
    '(stdout, _) <- execute_command c which_apt_cmd ;;
    if which_found stdout then ret "debian"
    else
      '(stdout, _) <- execute_command c which_yum_cmd ;;
      if which_found stdout then ret "centos"
      else ret "unknown".

(** The [for cmd in commands] loop, written twice in the source with
    the same body. *)
Fixpoint install_steps (c : client) (commands : list string) : M bool :=
  match commands with
  | [] => ret true
  | cmd :: rest =>
      '(_, stderr) <- execute_command c cmd ;;
      if install_step_failed stderr then ret false
      else install_steps c rest
  end.

Definition install_postgresql (c : client) (os_type : string) : M bool :=
  if os_type =? "debian" then install_steps c debian_commands
  else if os_type =? "centos" then install_steps c centos_commands
  else ret false.

(** The part of [configure_postgresql] after the paths are chosen. *)
Definition configure_with (c : client)
    (pg_hba_path postgresql_conf_path restart_cmd other_host : string)
  : M bool :=
  _ <- execute_command c (sed_cmd postgresql_conf_path) ;;
  _ <- execute_command c (backup_cmd pg_hba_path) ;;
  _ <- execute_command c (append_cmd pg_hba_path other_host) ;;
  '(_, stderr) <- execute_command c create_user_cmd ;;
  if contains "ERROR" stderr then ret false
  else
    _ <- execute_command c restart_cmd ;;
    ret true.

Definition configure_postgresql (c : client) (os_type other_host : string)
  : M bool :=
  if os_type =? "debian" then
    configure_with c "/etc/postgresql/14/main/pg_hba.conf"
      "/etc/postgresql/14/main/postgresql.conf"
      "systemctl restart postgresql" other_host
  else if os_type =? "centos" then
    configure_with c "/var/lib/pgsql/14/data/pg_hba.conf"
      "/var/lib/pgsql/14/data/postgresql.conf"
      "systemctl restart postgresql-14" other_host
  else ret false.

Definition test_postgresql (c : client) (os_type : string) : M bool :=
  '(stdout, _) <- execute_command c test_cmd ;;
  if contains "test_connection" stdout && contains "1" stdout
  then ret true else ret false.

(** The first loop of [run]: connect to every host in turn and sample
    the load of those that answer. *)
Fixpoint connect_hosts (hosts : list string)
    (clients : dict client) (loads : dict pyfloat)
  : M (exn + dict client * dict pyfloat) :=
  match hosts with
  | [] => ret (inr (clients, loads))
  | host :: rest =>
      r <- get_ssh_client host ;;
      match r with
      | inl e => ret (inl e)
      | inr None => connect_hosts rest clients loads
      | inr (Some c) =>
          load <- get_host_load c ;;
          connect_hosts rest (dict_set clients host c)
            (dict_set loads host load)
      end
  end.

(** [min(loads, key=loads.get)] *)
Definition select_target (loads : dict pyfloat) : option string :=
  min_by (dict_get loads) (dict_keys loads).

(** [[h for h in self.hosts if h != target_host]] *)
Definition other_hosts (hosts : list string) (target_host : string)
  : list string :=
  filter (fun h => negb (h =? target_host)) hosts.

(** The last loop of [run]. *)
Fixpoint close_all (cs : list client) : M unit :=
  match cs with
  | [] => ret tt
  | c :: rest => _ <- close c ;; close_all rest
  end.

(** [run] from the selection on.  [inr b] is [return b]; [inl e] is
    an exception that leaves [run]. *)
Definition run_selected (hosts : list string)
    (clients : dict client) (loads : dict pyfloat) : M (exn + bool) :=
  match select_target loads with
  | None => ret (inl ValueError)
  | Some target_host =>
      match other_hosts hosts target_host with
      | [] => ret (inl IndexError)
      | other_host :: _ =>
          match dict_get clients target_host with
          | None => ret (inl KeyError)
          | Some target =>
              os_type <- detect_os target ;;
              if os_type =? "unknown" then ret (inr false)
              else
                ok <- install_postgresql target os_type ;;
                if negb ok then ret (inr false)
                else
                  ok <- configure_postgresql target os_type other_host ;;
                  if negb ok then ret (inr false)
                  else
                    ok <- test_postgresql target os_type ;;
                    if negb ok then ret (inr false)
                    else
                      _ <- close_all (dict_values clients) ;;
                      ret (inr true)
          end
      end
  end.

Definition run (hosts : list string) : M (exn + bool) :=
  r <- connect_hosts hosts [] [] ;;
  match r with
  | inl e => ret (inl e)
  | inr (clients, loads) =>
      if negb (dict_truthy clients) then ret (inr false)
      else run_selected hosts clients loads
  end.

End Program.

(** What [parser.parse_args()] does with the command line: it gives
    the values of [hosts] and [--key], or ends the process itself by
    raising [SystemExit] with a status (0 after printing the help, 2
    after a usage error).  argparse is a collaborator like the
    transport. *)
Inductive parse_outcome : Type :=
| ArgsOk (hosts : string) (key : option string)
| ArgsExit (status : Z).

Class ArgParser : Type := {
  parse_args : list string -> parse_outcome
}.

(** How [main] ends: it returns a code, or an exception of [run] leaves
    it, or argparse ended the process. *)
Inductive main_outcome : Type :=
| MainReturn (code : Z)
| MainRaise (e : exn)
| MainExit (status : Z).

Section Main.
Context `{T : Transport} `{P : ArgParser}.

(** [main], given the command line after the program name.  The key
    path only reaches [connect], which is the transport's. *)
Definition main (argv : list string) : M main_outcome :=
  match parse_args argv with
  | ArgsExit status => ret (MainExit status)
  | ArgsOk hosts_arg _ =>
      let hosts := map strip (split_on "," hosts_arg) in
      if negb (Nat.eqb (List.length hosts) 2) then ret (MainReturn 1%Z)
      else
        r <- run hosts ;;
        match r with
        | inl e => ret (MainRaise e)
        | inr success => ret (MainReturn (if success then 0%Z else 1%Z))
        end
  end.

(** [sys.exit(main())]: the value [main] returns, or 1 when an
    exception reaches the top of the interpreter, or the status
    argparse ended the process with. *)
Definition exit_status (r : main_outcome) : Z :=
  match r with
  | MainReturn code => code
  | MainRaise _ => 1%Z
  | MainExit status => status
  end.

Definition process (argv : list string) : M Z :=
  r <- main argv ;; ret (exit_status r).
End Main.

End Installer.
(** ** The vocabulary of the specification *)

Module Spec.
Import Py Installer.

(** [occurs kw text]: [kw] is a substring of [text], letter for letter. *)
Definition occurs (kw text : string) : Prop :=
  exists pre post, text = pre ++ kw ++ post.

(** [same_word_ci kw w]: [w] spells the lower-case word [kw], each
    letter in either case. *)
Fixpoint same_word_ci (kw w : string) : Prop :=
  match kw, w with
  | EmptyString, EmptyString => True
  | String k kw', String c w' =>
      (c = k \/ c = upper_char k) /\ same_word_ci kw' w'
  | _, _ => False
  end.

(** [occurs_ci kw text]: [kw] occurs in [text] in some letter case. *)
Definition occurs_ci (kw text : string) : Prop :=
  exists pre mid post, text = pre ++ mid ++ post /\ same_word_ci kw mid.

Fixpoint lowercase_word (kw : string) : bool :=
  match kw with
  | EmptyString => true
  | String k kw' => is_lower k && lowercase_word kw'
  end.

(** The OS metadata names a family. *)
Definition names_debian (metadata : string) : Prop :=
  occurs_ci "debian" metadata.

Definition names_rhel (metadata : string) : Prop :=
  occurs_ci "centos" metadata \/ occurs_ci "almalinux" metadata
  \/ occurs_ci "rhel" metadata.

(** The failure marker of the install phase. *)
Definition failure_marker (stderr : string) : Prop :=
  occurs_ci "failed" stderr \/ occurs_ci "error" stderr.

(** The events of running [commands] on [c] in order, with the outputs
    [outs] they gave (as many events as the shorter list allows). *)
Definition ran_events (c : client) (commands : list string)
    (outs : list (string * string)) : list event :=
  map (fun p => Ran c (fst p) (fst (snd p)) (snd (snd p)))
      (combine commands outs).

(** A sample mapping holds a finite value; it holds no NaN. *)
Definition has_finite (loads : dict pyfloat) : Prop :=
  exists h q, dict_get loads h = Some (PFin q).

Definition nan_free (loads : dict pyfloat) : Prop :=
  forall h, dict_get loads h <> Some PNaN.

(** [target] is the key at position [i], its load is no greater than
    any load of the mapping, and strictly smaller than the load of
    every earlier key: the first host of minimal load. *)
Definition first_minimum (loads : dict pyfloat) (target : string) : Prop :=
  exists i vt,
    nth_error (dict_keys loads) i = Some target /\
    dict_get loads target = Some vt /\
    forall j h v,
      nth_error (dict_keys loads) j = Some h ->
      dict_get loads h = Some v ->
      float_le vt v = true /\ (j < i -> float_lt vt v = true).

(** Sessions opened, and sessions closed, in a trace; a trace in which
    every opened session is closed. *)
Definition was_closed (tr : list event) (c : client) : Prop :=
  In (Closed c) tr.

Definition was_opened (tr : list event) (c : client) : Prop :=
  In (Opened c) tr.

Definition all_closed (tr : list event) : Prop :=
  forall c, was_opened tr c -> was_closed tr c.

(** Events that are the running of a command. *)
Definition is_ran (e : event) : Prop :=
  match e with
  | Ran _ _ _ _ => True
  | _ => False
  end.

Local Open Scope list_scope.

(** Number of occurrences of a character. *)
Fixpoint count_char (sep : ascii) (s : string) : nat :=
  match s with
  | EmptyString => 0
  | String c s' => (if Ascii.eqb c sep then 1 else 0) + count_char sep s'
  end.

(** What the loop of [min] knows after the keys [seen]: [best] is one
    of them, no key seen has a smaller value, and every key seen before
    [best] has a larger one. *)
Definition best_so_far (key : string -> option pyfloat)
    (seen : list string) (best : string) (bestv : pyfloat) : Prop :=
  exists i,
    nth_error seen i = Some best /\
    key best = Some bestv /\
    forall j h v,
      nth_error seen j = Some h -> key h = Some v ->
      float_le bestv v = true /\ (j < i -> float_lt bestv v = true).

(** How a run of several install steps ended, read off the trace:
    [passed] are the outputs of the steps that went through; either
    they are all the steps and the phase reports success, or exactly
    one more step was run, its error stream carried a failure marker,
    and the phase reports failure. *)
Definition install_outcome (c : client) (commands : list string)
    (before : list event) (result : bool) (after : list event) : Prop :=
  exists passed : list (string * string),
    Forall (fun oe => ~ failure_marker (snd oe)) passed /\
    ((result = true /\
      List.length passed = List.length commands /\
      after = before ++ ran_events c commands passed)
     \/
     (exists out err,
        result = false /\
        failure_marker err /\
        List.length passed < List.length commands /\
        after = before ++ ran_events c commands (passed ++ [(out, err)]))).

(** How the configure phase ended for given paths, read off the trace. *)
Definition configure_outcome (c : client)
    (pg_hba_path postgresql_conf_path restart_cmd other_host : string)
    (before : list event) (result : bool) (after : list event) : Prop :=
  exists o1 e1 o2 e2 o3 e3 out err,
    let prefix :=
      [ Ran c (sed_cmd postgresql_conf_path) o1 e1;
        Ran c (backup_cmd pg_hba_path) o2 e2;
        Ran c (append_cmd pg_hba_path other_host) o3 e3;
        Ran c create_user_cmd out err ] in
    (result = false <-> occurs "ERROR" err) /\
    ((occurs "ERROR" err /\ after = before ++ prefix)
     \/
     (~ occurs "ERROR" err /\
      exists ro re, after = before ++ prefix ++ [Ran c restart_cmd ro re])).

(** A computation that does nothing to the outside but run commands. *)
Definition only_runs `{T : Transport} {A : Type} (m : M A) : Prop :=
  forall st, exists evs,
    trace (snd (m st)) = trace st ++ evs /\ Forall is_ran evs.

End Spec.

(** ** Concrete remote hosts *)

Module Scenarios.
Import Py Installer.

Fixpoint digits_from (acc : N) (s : string) : option N :=
  match s with
  | EmptyString => Some acc
  | String c s' =>
      let n := N_of_ascii c in
      if ((48 <=? n) && (n <=? 57))%N
      then digits_from (acc * 10 + (n - 48)) s'
      else None
  end.

Definition digits (s : string) : option N :=
  if truthy s then digits_from 0 s else None.

(** [float] on the numerals the scenarios meet: [nan], [inf], and
    unsigned decimals [d+] or [d+.d+] as /proc/loadavg prints them,
    whose values below are doubles.  Anything else is rejected. *)
Definition read_float (s : string) : option pyfloat :=
  if s =? "nan" then Some PNaN
  else if s =? "inf" then Some inf
  else
    match split_on "." s with
    | [whole] =>
        match digits whole with
        | Some n => Some (PFin (Z.of_N n # 1))
        | None => None
        end
    | [whole; frac] =>
        match digits whole, digits frac with
        | Some n, Some f =>
            let scale := Pos.pow 10 (Pos.of_nat (String.length frac)) in
            Some (PFin ((Z.of_N n * Zpos scale + Z.of_N f) # scale))
        | _, _ => None
        end
    | _ => None
    end.

(** Hosts that keep no memory: whether a host accepts the connection,
    and what each command answers there. *)
Record script : Type := {
  accepts : string -> conn_outcome;
  answers : string -> string -> exec_outcome
}.

Definition scripted (s : script) : Transport :=
  {| World := unit;
     connect := fun w host => (accepts s host, w);
     exec_command := fun w c command => (answers s (peer c) command, w);
     py_float := read_float |}.

Definition start (s : script) : @state (scripted s) :=
  @Build_state (scripted s) tt 0 [].

Definition silent : exec_outcome := ExecOk "" "".


(** Both hosts answer and report a load, but nothing tells which
    system they run. *)
Definition unknown_system : script :=
  {| accepts := fun _ => ConnOk;
     answers := fun host command =>
       if command =? loadavg_cmd
       then (if host =? "h1"
             then ExecOk "0.50 0.30 0.20 1/100 1234" ""
             else ExecOk "1.25 1.00 0.75 2/100 4321" "")
       else silent |}.

(** A Debian host [h1] at load 0.50 and a host [h2] at load 1.25, where
    every step succeeds. *)
Definition healthy : script :=
  {| accepts := fun _ => ConnOk;
     answers := fun host command =>
       if command =? loadavg_cmd
       then (if host =? "h1"
             then ExecOk "0.50 0.30 0.20 1/100 1234" ""
             else ExecOk "1.25 1.00 0.75 2/100 4321" "")
       else if command =? os_release_cmd
       then ExecOk "ID=debian" ""
       else if command =? test_cmd
       then ExecOk (" test_connection " ++ nl ++ "-----------------" ++ nl
                    ++ "               1" ++ nl ++ "(1 row)") ""
       else silent |}.



(** What argparse does, for the parser [main] builds, on the command
    lines that need nothing of its option syntax but the exact words
    [-h], [--help] and [--key]: with no word the host argument is
    missing, a usage error, status 2; the one word [-h] or [--help]
    prints the help and ends with status 0; one word that does not
    start with a dash is the host argument, with no key; and [--key]
    with its value before or after the host argument, neither starting
    with a dash, gives both.  [others] answers every other command
    line. *)
Definition argparse_with (others : list string -> parse_outcome)
  : ArgParser :=
  {| parse_args := fun argv =>
       match argv with
       | [] => ArgsExit 2%Z
       | [word] =>
           if (word =? "-h") || (word =? "--help") then ArgsExit 0%Z
           else if startswith "-" word then others argv
           else ArgsOk word None
       | [w1; w2; w3] =>
           if (w1 =? "--key") && negb (startswith "-" w2)
              && negb (startswith "-" w3)
           then ArgsOk w3 (Some w2)
           else if negb (startswith "-" w1) && (w2 =? "--key")
                   && negb (startswith "-" w3)
           then ArgsOk w1 (Some w3)
           else others argv
       | _ => others argv
       end |}.

(** The command lines of the examples; none of them is one that
    [argparse_with] leaves open, which are answered here as usage
    errors. *)
Definition command_line : ArgParser :=
  argparse_with (fun _ => ArgsExit 2%Z).

(** A sample mapping whose first value is NaN. *)
Definition nan_first : dict pyfloat := [("h1", PNaN); ("h2", PFin (1 # 2))].

(** A sample mapping with a tie for the minimum. *)
Definition tied : dict pyfloat :=
  [("h1", PFin (3 # 4)); ("h2", PFin (1 # 2)); ("h3", PFin (1 # 2))].

End Scenarios.

(** ** Further vocabulary: probes, traces, arguments *)

Module Behaviour.
Import Py Installer Spec Scenarios.
Local Open Scope list_scope.

(** A text made of blank characters only. *)
Inductive blank_text : string -> Prop :=
| blank_text_nil : blank_text EmptyString
| blank_text_cons (b s : string) :
    In b blanks -> blank_text s -> blank_text (b ++ s)%string.

(** A byte that is a character of ASCII other than a blank; a word made
    of such characters; a host name, which has no comma either. *)
Definition plain_byte (c : ascii) : bool :=
  (N_of_ascii c <? 128)%N && negb (is_space c).

Fixpoint plain_word (s : string) : bool :=
  match s with
  | EmptyString => true
  | String c s' => plain_byte c && plain_word s'
  end.

Fixpoint host_name (s : string) : bool :=
  match s with
  | EmptyString => true
  | String c s' => plain_byte c && negb (Ascii.eqb c ",") && host_name s'
  end.

(** *** What the hosts answer *)

(** The output and error texts [execute_command] makes of an outcome of
    the transport. *)
Definition streams (r : exec_outcome) : string * string :=
  match r with
  | ExecOk out err => (out, err)
  | ExecRaise msg => (EmptyString, (exec_error_prefix ++ msg)%string)
  end.

Section Answers.
Context `{T : Transport}.

(** The captured output and error stream of [command], asked on the
    session [c] of hosts that are in the state [w]. *)
Definition stdout_of (w : World) (c : client) (command : string) : string :=
  fst (streams (fst (exec_command w c command))).

Definition stderr_of (w : World) (c : client) (command : string) : string :=
  snd (streams (fst (exec_command w c command))).

(** Asking [commands] one after the other: the commands with the
    answers the hosts give, and the state the hosts are left in. *)
Fixpoint conversation (w : World) (c : client) (commands : list string)
  : list event * World :=
  match commands with
  | [] => ([], w)
  | command :: rest =>
      let (evs, w') := conversation (snd (exec_command w c command)) c rest in
      (Ran c command (stdout_of w c command) (stderr_of w c command) :: evs,
       w')
  end.

Definition world_after (w : World) (c : client) (commands : list string)
  : World :=
  snd (conversation w c commands).

(** The state of the program once [commands] were asked from [st], and
    nothing else was done. *)
Definition after_commands (st : state) (c : client) (commands : list string)
  : state :=
  {| world := world_after (world st) c commands;
     next_session := next_session st;
     trace := trace st ++ fst (conversation (world st) c commands) |}.

(** The install phase ended as if it had asked the first [n] of
    [commands] and no other: either they are all the commands, none of
    them answered with a failure marker on its error stream, and the
    result is success; or the last one asked is the first to answer
    with a failure marker, and the result is failure.  The error
    stream of a step is the one the hosts give in the state the steps
    before have left them in. *)
Definition stopped_at_first_failure (c : client) (commands : list string)
    (st : state) (result : bool) (st' : state) : Prop :=
  let stderr_at i command :=
    stderr_of (world_after (world st) c (firstn i commands)) c command in
  exists n,
    n <= List.length commands /\
    st' = after_commands st c (firstn n commands) /\
    ((result = true /\ n = List.length commands /\
      forall i command,
        nth_error commands i = Some command ->
        ~ failure_marker (stderr_at i command))
     \/
     (result = false /\
      exists k command,
        n = S k /\ nth_error commands k = Some command /\
        failure_marker (stderr_at k command) /\
        forall i command',
          i < k -> nth_error commands i = Some command' ->
          ~ failure_marker (stderr_at i command'))).

(** The configure phase ended as the role creation decided: its result
    is failure exactly when the error stream the hosts give for the
    role-creation command, once the rewrite, the backup and the append
    were asked, holds "ERROR"; and it asked those three commands, the
    role creation and, on success only, the restart, and nothing
    else. *)
Definition judged_by_role_creation (c : client)
    (pg_hba_path postgresql_conf_path restart_cmd other_host : string)
    (st : state) (result : bool) (st' : state) : Prop :=
  let earlier :=
    [ sed_cmd postgresql_conf_path; backup_cmd pg_hba_path;
      append_cmd pg_hba_path other_host ] in
  let err :=
    stderr_of (world_after (world st) c earlier) c create_user_cmd in
  (result = false <-> occurs "ERROR" err) /\
  st' = after_commands st c
          (earlier ++ create_user_cmd
                      :: (if result then [restart_cmd] else [])).
End Answers.

(** The output of [which] shows the binary: it is not empty and is not
    the complaint that starts with "which:". *)
Definition binary_present (stdout : string) : Prop :=
  stdout <> EmptyString /\
  ~ exists rest, stdout = ("which:" ++ rest)%string.

(** The two authentication files the program knows. *)
Definition authentication_file (path : string) : Prop :=
  path = "/etc/postgresql/14/main/pg_hba.conf"
  \/ path = "/var/lib/pgsql/14/data/pg_hba.conf".

(** A command that appends to a file from a here-document is the
    access rule for [other_host], appended to an authentication file. *)
Definition rule_for (other_host command : string) : Prop :=
  startswith "cat <<EOF >> " command = true ->
  exists pg_hba_path,
    authentication_file pg_hba_path /\
    command = append_cmd pg_hba_path other_host.

(** An event that is a command run on the session [c] and for which [P]
    holds. *)
Definition runs_such (c : client) (P : string -> Prop) (e : event) : Prop :=
  match e with
  | Ran c' command _ _ => c' = c /\ P command
  | _ => False
  end.

Definition only_runs_such `{T : Transport} {A : Type} (c : client)
    (P : string -> Prop) (m : M A) : Prop :=
  forall st, exists evs,
    trace (snd (m st)) = trace st ++ evs /\ Forall (runs_such c P) evs.

(** What the value of a float read from a token is taken to be. *)
Definition float_or_inf `{T : Transport} (tok : string) : pyfloat :=
  match py_float tok with
  | Some x => x
  | None => inf
  end.

(** The events of connecting and sampling: each session opened is at
    once asked for its load, and nothing else happens. *)
Inductive sampling : list event -> Prop :=
| sampling_nil : sampling []
| sampling_cons (c : client) (out err : string) (evs : list event) :
    sampling evs ->
    sampling (Opened c :: Ran c loadavg_cmd out err :: evs).

(** An event that is a command run on the session [c]. *)
Definition runs_on (c : client) (e : event) : Prop :=
  match e with
  | Ran c' _ _ _ => c' = c
  | _ => False
  end.

(** In [evs] every command is run on a session opened earlier in [evs]
    and not closed since. *)
Definition disciplined (evs : list event) : Prop :=
  forall l1 c command out err l2,
    evs = l1 ++ Ran c command out err :: l2 ->
    In (Opened c) l1 /\ ~ In (Closed c) l1.

(** A computation that does nothing to the outside but run commands on
    the session [c]. *)
Definition only_runs_on `{T : Transport} {A : Type} (c : client) (m : M A)
  : Prop :=
  forall st, exists evs,
    trace (snd (m st)) = trace st ++ evs /\ Forall (runs_on c) evs.

(** Every client is stored under the name of the host it was opened
    for. *)
Definition keyed_by_peer (clients : dict client) : Prop :=
  forall h c, dict_get clients h = Some c -> peer c = h.

(** A sample mapping whose first host could not be read. *)
Definition first_unreadable : dict pyfloat :=
  [("h1", inf); ("h2", PFin (5 # 4)); ("h3", inf)].

(** The sessions opened in a list of events, in order. *)
Fixpoint opened_by (evs : list event) : list client :=
  match evs with
  | [] => []
  | Opened c :: evs' => c :: opened_by evs'
  | _ :: evs' => opened_by evs'
  end.

(** The same discipline, followed along the events: [opened] and
    [closed] are the sessions opened and closed so far. *)
Fixpoint disciplined_from (opened closed : list client) (evs : list event)
  : Prop :=
  match evs with
  | [] => True
  | Opened c :: evs' => disciplined_from (c :: opened) closed evs'
  | Ran c _ _ _ :: evs' =>
      In c opened /\ ~ In c closed /\ disciplined_from opened closed evs'
  | Closed c :: evs' => disciplined_from opened (c :: closed) evs'
  end.

(** What [main] makes of what [run] gives. *)
Definition main_result (r : exn + bool) : main_outcome :=
  match r with
  | inl e => MainRaise e
  | inr success => MainReturn (if success then 0%Z else 1%Z)
  end.

(** The four phases together, as [run] chains them on the target. *)
Definition phases `{T : Transport} (c : client) (other_host : string) : M (option bool) :=
  bind (detect_os c) (fun os_type =>
    if (os_type =? "unknown")%string then ret None
    else
      bind (install_postgresql c os_type) (fun ok =>
        if negb ok then ret (Some false)
        else
          bind (configure_postgresql c os_type other_host) (fun ok =>
            if negb ok then ret (Some false)
            else
              bind (test_postgresql c os_type) (fun ok =>
                ret (Some ok))))).

(** Sessions that dropped after the connection: every command raises. *)
Definition dead_sessions : script :=
  {| accepts := fun _ => ConnOk;
     answers := fun _ _ => ExecRaise "SSH session not active" |}.

(** [h1] cannot be reached; [h2] is a RHEL-like host where every step
    succeeds. *)
Definition one_refuses : script :=
  {| accepts := fun host => if host =? "h1" then ConnRefused else ConnOk;
     answers := fun _ command =>
       if command =? loadavg_cmd
       then ExecOk "3.75 2.00 1.00 5/200 999" ""
       else if command =? os_release_cmd
       then ExecOk "ID=almalinux" ""
       else if command =? test_cmd
       then ExecOk (" test_connection " ++ nl ++ "-----------------" ++ nl
                    ++ "               1" ++ nl ++ "(1 row)")%string ""
       else silent |}.

(** Hosts whose load file separates its numbers with U+00A0. *)
Definition no_break_spaces : script :=
  {| accepts := fun _ => ConnOk;
     answers := fun _ command =>
       if command =? loadavg_cmd
       then ExecOk ("0.50" ++ utf8 160 ++ "0.30" ++ utf8 160 ++ "0.20")%string ""
       else silent |}.

(** The connection to [h2] fails with an exception that is not caught. *)
Definition second_crashes : script :=
  {| accepts := fun host => if host =? "h2" then ConnError else ConnOk;
     answers := answers healthy |}.

End Behaviour.

(** ** Facts about the built-ins *)

Module PyFacts.
Import Py Spec.

(** *** Substrings *)

Lemma startswith_iff (p s : string) :
  startswith p s = true <-> exists rest, s = p ++ rest.
Proof.
  revert s. induction p as [|a p IH]; intros s; simpl.
  - split; [intros _; now exists s | reflexivity].
  - destruct s as [|b s].
    + split; [discriminate | intros [rest H]; discriminate].
    + rewrite andb_true_iff, Ascii.eqb_eq, IH. split.
      * intros [-> [rest ->]]. now exists rest.
      * intros [rest H]. injection H as -> ->. split; [reflexivity | now exists rest].
Qed.

Lemma contains_iff (needle hay : string) :
  contains needle hay = true <-> occurs needle hay.
Proof.
  unfold occurs. induction hay as [|c hay IH]; simpl.
  - rewrite orb_false_r, startswith_iff. split.
    + intros [rest H]. exists EmptyString, rest. exact H.
    + intros [pre [post H]]. destruct pre; simpl in H.
      * now exists post.
      * discriminate.
  - rewrite orb_true_iff, startswith_iff, IH. split.
    + intros [[rest H] | [pre [post H]]].
      * exists EmptyString, rest. exact H.
      * exists (String c pre), post. simpl. now rewrite H.
    + intros [pre [post H]]. destruct pre as [|a pre]; simpl in H.
      * left. now exists post.
      * right. injection H as _ H. now exists pre, post.
Qed.

Lemma contains_false_iff (needle hay : string) :
  contains needle hay = false <-> ~ occurs needle hay.
Proof.
  rewrite <- contains_iff. destruct (contains needle hay); split; intros H;
    try reflexivity; try discriminate; try (intros E; discriminate).
  exfalso. now apply H.
Qed.

(** *** Letter case *)

Lemma lower_app (s t : string) : lower (s ++ t) = lower s ++ lower t.
Proof. induction s as [|c s IH]; simpl; [reflexivity | now rewrite IH]. Qed.

(** A split of [lower text] comes from a split of [text]. *)
Lemma lower_split (a b text : string) :
  lower text = a ++ b ->
  exists ta tb, text = ta ++ tb /\ lower ta = a /\ lower tb = b.
Proof.
  revert text. induction a as [|x a IH]; intros text H; simpl in H.
  - exists EmptyString, text. auto.
  - destruct text as [|c text]; simpl in H; [discriminate|].
    injection H as Hc H. destruct (IH _ H) as [ta [tb [-> [Ha Hb]]]].
    exists (String c ta), tb. simpl. now rewrite Hc, Ha.
Qed.

(** The characters [lower] sends to a lower-case letter are that letter
    and its capital. *)
Lemma lower_char_letter (k c : ascii) :
  is_lower k = true -> (lower_char c = k <-> c = k \/ c = upper_char k).
Proof.
  intros Hk. split.
  - intros <-.
    destruct c as [[] [] [] [] [] [] [] []];
      try discriminate Hk; (left; reflexivity) || (right; reflexivity).
  - intros [-> | ->].
    + destruct k as [[] [] [] [] [] [] [] []];
        try discriminate Hk; reflexivity.
    + destruct k as [[] [] [] [] [] [] [] []];
        try discriminate Hk; reflexivity.
Qed.

Lemma lower_word (kw w : string) :
  lowercase_word kw = true -> (lower w = kw <-> same_word_ci kw w).
Proof.
  revert w. induction kw as [|k kw IH]; intros w Hkw.
  - destruct w; simpl; split; try tauto; discriminate.
  - simpl in Hkw. apply andb_true_iff in Hkw as [Hk Hkw].
    destruct w as [|c w]; simpl.
    + split; [discriminate | tauto].
    + rewrite <- (IH w Hkw), <- (lower_char_letter k c Hk). split.
      * intros H. injection H as H1 H2. auto.
      * intros [-> ->]. reflexivity.
Qed.

(** Searching the lower-cased text for a lower-case word is searching
    the text for the word in any letter case. *)
Lemma contains_lower_iff (kw text : string) :
  lowercase_word kw = true ->
  (contains kw (lower text) = true <-> occurs_ci kw text).
Proof.
  intros Hkw. rewrite contains_iff. unfold occurs, occurs_ci. split.
  - intros [pre [post H]].
    destruct (lower_split _ _ _ H) as [tp [rest [-> [Hp Hrest]]]].
    destruct (lower_split _ _ _ Hrest) as [mid [tq [-> [Hm Hq]]]].
    exists tp, mid, tq. split; [reflexivity|]. now apply lower_word.
  - intros [pre [mid [post [-> Hm]]]].
    exists (lower pre), (lower post).
    rewrite !lower_app. apply lower_word in Hm; [|exact Hkw]. now rewrite Hm.
Qed.

(** *** The order of floats *)

Lemma Qltb_iff (a b : Q) : Qltb a b = true <-> (a < b)%Q.
Proof.
  unfold Qltb. rewrite negb_true_iff. split.
  - intros H. apply Qnot_le_lt. intros Hle.
    apply Qle_bool_iff in Hle. congruence.
  - intros H. destruct (Qle_bool b a) eqn:E; [|reflexivity].
    apply Qle_bool_iff in E. exfalso. exact (Qlt_not_le _ _ H E).
Qed.

Lemma float_le_refl (x : pyfloat) : is_nan x = false -> float_le x x = true.
Proof.
  destruct x as [|[]|q]; simpl; intros H; try reflexivity; try discriminate.
  apply Qle_bool_iff. apply Qle_refl.
Qed.

Lemma float_lt_le (x y : pyfloat) : float_lt x y = true -> float_le x y = true.
Proof.
  destruct x as [|[]|a], y as [|[]|b]; simpl; intros H;
    try reflexivity; try discriminate.
  apply Qle_bool_iff. apply Qlt_le_weak. now apply Qltb_iff.
Qed.

(** Without NaN the order is total. *)
Lemma float_not_lt_le (x y : pyfloat) :
  is_nan x = false -> is_nan y = false ->
  float_lt x y = false -> float_le y x = true.
Proof.
  destruct x as [|[]|a], y as [|[]|b]; simpl; intros Hx Hy H;
    try reflexivity; try discriminate.
  unfold Qltb in H. apply negb_false_iff in H. exact H.
Qed.

Lemma float_lt_le_trans (x y z : pyfloat) :
  float_lt x y = true -> float_le y z = true -> float_lt x z = true.
Proof.
  destruct x as [|[]|a], y as [|[]|b], z as [|[]|c]; simpl; intros H1 H2;
    try reflexivity; try discriminate.
  apply Qltb_iff. apply Qltb_iff in H1. apply Qle_bool_iff in H2.
  exact (Qlt_le_trans _ _ _ H1 H2).
Qed.

Lemma float_le_trans (x y z : pyfloat) :
  float_le x y = true -> float_le y z = true -> float_le x z = true.
Proof.
  destruct x as [|[]|a], y as [|[]|b], z as [|[]|c]; simpl; intros H1 H2;
    try reflexivity; try discriminate.
  apply Qle_bool_iff. apply Qle_bool_iff in H1. apply Qle_bool_iff in H2.
  exact (Qle_trans _ _ _ H1 H2).
Qed.

(** *** Dictionaries *)

Section DictFacts.
Context {V : Type}.

Lemma dict_get_in_keys (d : dict V) (k : string) :
  In k (dict_keys d) -> exists v, dict_get d k = Some v.
Proof.
  induction d as [|[k' v'] d IH]; simpl; [tauto|].
  intros [-> | H].
  - rewrite String.eqb_refl. now exists v'.
  - destruct (String.eqb k' k); [now exists v' | now apply IH].
Qed.

Lemma dict_get_some_in_keys (d : dict V) (k : string) (v : V) :
  dict_get d k = Some v -> In k (dict_keys d).
Proof.
  induction d as [|[k' v'] d IH]; simpl; [discriminate|].
  destruct (String.eqb k' k) eqn:E.
  - apply String.eqb_eq in E. now left.
  - intros H. right. now apply IH.
Qed.

Lemma dict_set_not_empty (d : dict V) (k : string) (v : V) :
  dict_set d k v <> [].
Proof. destruct d as [|[k' v'] d]; simpl; [|destruct (String.eqb k' k)]; discriminate. Qed.

Lemma dict_keys_set {W : Type} (d : dict V) (e : dict W) k (v : V) (w : W) :
  dict_keys d = dict_keys e ->
  dict_keys (dict_set d k v) = dict_keys (dict_set e k w).
Proof.
  revert e. induction d as [|[k1 v1] d IH]; intros [|[k2 v2] e]; simpl;
    try discriminate; [reflexivity|].
  intros H. injection H as -> H.
  destruct (String.eqb k2 k); simpl; [now rewrite H | now rewrite (IH e H)].
Qed.

Lemma dict_get_set_same (d : dict V) (k : string) (v : V) :
  dict_get (dict_set d k v) k = Some v.
Proof.
  induction d as [|[k' v'] d IH]; simpl.
  - now rewrite String.eqb_refl.
  - destruct (String.eqb k' k) eqn:E; simpl; rewrite E; [reflexivity | exact IH].
Qed.

Lemma dict_get_set_other (d : dict V) (k h : string) (v : V) :
  h <> k -> dict_get (dict_set d k v) h = dict_get d h.
Proof.
  intros Hne. induction d as [|[k' v'] d IH]; simpl.
  - destruct (String.eqb k h) eqn:E; [|reflexivity].
    apply String.eqb_eq in E. congruence.
  - destruct (String.eqb k' k) eqn:E; simpl.
    + apply String.eqb_eq in E. subst k'.
      destruct (String.eqb k h) eqn:E'; [|reflexivity].
      apply String.eqb_eq in E'. congruence.
    + destruct (String.eqb k' h); [reflexivity | exact IH].
Qed.

(** Keys written into a dictionary are keys of the result. *)
Lemma dict_keys_set_in (d : dict V) (k h : string) (v : V) :
  In h (dict_keys (dict_set d k v)) <-> h = k \/ In h (dict_keys d).
Proof.
  induction d as [|[k' v'] d IH]; simpl.
  - intuition congruence.
  - destruct (String.eqb k' k) eqn:E; simpl.
    + apply String.eqb_eq in E. subst k'. intuition congruence.
    + rewrite IH. intuition congruence.
Qed.
End DictFacts.

End PyFacts.

(** ** Placement: the choice of the target host *)

Module Placement.
Import Py Installer Spec PyFacts Scenarios.
Local Open Scope list_scope.

Section MinLoop.
Variable key : string -> option pyfloat.
Hypothesis key_not_nan : forall h, key h <> Some PNaN.

Lemma key_value_not_nan h v : key h = Some v -> is_nan v = false.
Proof.
  intros H. destruct v; try reflexivity. exfalso. exact (key_not_nan h H).
Qed.

Lemma best_so_far_keep seen best bestv item v :
  best_so_far key seen best bestv ->
  key item = Some v ->
  float_lt v bestv = false ->
  best_so_far key (seen ++ [item]) best bestv.
Proof.
  intros [i [Hi [Hb Hall]]] Hv Hlt. exists i. split; [|split; [exact Hb|]].
  - rewrite nth_error_app1; [exact Hi|]. apply nth_error_Some. congruence.
  - intros j h w Hj Hw.
    assert (Hlen : i < List.length seen) by (apply nth_error_Some; congruence).
    destruct (Nat.lt_ge_cases j (List.length seen)) as [Hin | Hout].
    + rewrite nth_error_app1 in Hj by exact Hin. now apply (Hall j h w).
    + rewrite nth_error_app2 in Hj by exact Hout.
      destruct (j - List.length seen) as [|n] eqn:E; simpl in Hj.
      * injection Hj as <-. rewrite Hv in Hw. injection Hw as <-. split.
        -- apply float_not_lt_le; [ | | exact Hlt].
           ++ exact (key_value_not_nan _ _ Hv).
           ++ exact (key_value_not_nan _ _ Hb).
        -- lia.
      * destruct n; discriminate.
Qed.

Lemma best_so_far_replace seen best bestv item v :
  best_so_far key seen best bestv ->
  key item = Some v ->
  float_lt v bestv = true ->
  best_so_far key (seen ++ [item]) item v.
Proof.
  intros [i [Hi [Hb Hall]]] Hv Hlt. exists (List.length seen).
  split; [|split; [exact Hv|]].
  - rewrite nth_error_app2 by lia. now rewrite Nat.sub_diag.
  - intros j h w Hj Hw.
    destruct (Nat.lt_ge_cases j (List.length seen)) as [Hin | Hout].
    + rewrite nth_error_app1 in Hj by exact Hin.
      destruct (Hall j h w Hj Hw) as [Hle _].
      assert (Hvw : float_lt v w = true) by exact (float_lt_le_trans _ _ _ Hlt Hle).
      split; [now apply float_lt_le | intros _; exact Hvw].
    + rewrite nth_error_app2 in Hj by exact Hout.
      destruct (j - List.length seen) as [|n] eqn:E; simpl in Hj.
      * injection Hj as <-. rewrite Hv in Hw. injection Hw as <-. split.
        -- apply float_le_refl. exact (key_value_not_nan _ _ Hv).
        -- lia.
      * destruct n; discriminate.
Qed.

(** The loop ends, and ends on the first key of least value. *)
Lemma min_loop_first_minimum rest :
  forall seen best bestv,
    (forall h, In h rest -> exists v, key h = Some v) ->
    best_so_far key seen best bestv ->
    exists t vt,
      min_loop key best bestv rest = Some t /\
      best_so_far key (seen ++ rest) t vt.
Proof.
  induction rest as [|item rest IH]; intros seen best bestv Hkeys Hinv; simpl.
  - exists best, bestv. now rewrite app_nil_r.
  - destruct (Hkeys item (or_introl eq_refl)) as [v Hv]. rewrite Hv.
    assert (Hrest : forall h, In h rest -> exists v, key h = Some v)
      by (intros h Hh; apply Hkeys; now right).
    replace (seen ++ item :: rest) with ((seen ++ [item]) ++ rest)
      by (now rewrite <- app_assoc).
    destruct (float_lt v bestv) eqn:Hlt.
    + apply IH; [exact Hrest|]. exact (best_so_far_replace seen best bestv item v Hinv Hv Hlt).
    + apply IH; [exact Hrest|].
      exact (best_so_far_keep seen best bestv item v Hinv Hv Hlt).
Qed.

Lemma min_by_first_minimum items :
  items <> [] ->
  (forall h, In h items -> exists v, key h = Some v) ->
  exists t vt, min_by key items = Some t /\ best_so_far key items t vt.
Proof.
  destruct items as [|first rest]; [congruence|]. intros _ Hkeys.
  destruct (Hkeys first (or_introl eq_refl)) as [v Hv].
  assert (Hstart : best_so_far key [first] first v).
  { exists 0. split; [reflexivity|]. split; [exact Hv|].
    intros [|j] h w Hj Hw; simpl in Hj.
    - injection Hj as <-. rewrite Hv in Hw. injection Hw as <-. split.
      + apply float_le_refl. exact (key_value_not_nan _ _ Hv).
      + lia.
    - destruct j; discriminate. }
  destruct rest as [|second rest].
  - exists first, v. split; [reflexivity | exact Hstart].
  - unfold min_by. rewrite Hv.
    apply (min_loop_first_minimum (second :: rest) [first] first v);
      [|exact Hstart].
    intros h Hh. apply Hkeys. now right.
Qed.
End MinLoop.



(** The target is always one of the keys. *)
Lemma min_loop_in (key : string -> option pyfloat) rest :
  forall best bestv t,
    min_loop key best bestv rest = Some t -> t = best \/ In t rest.
Proof.
  induction rest as [|item rest IH]; intros best bestv t; simpl.
  - intros H. injection H as <-. now left.
  - destruct (key item) as [v|]; [|discriminate].
    destruct (float_lt v bestv); intros H; apply IH in H;
      destruct H as [-> | H]; auto.
Qed.

Lemma select_target_in_keys (loads : dict pyfloat) t :
  select_target loads = Some t -> In t (dict_keys loads).
Proof.
  unfold select_target, min_by.
  destruct (dict_keys loads) as [|first [|second rest]]; [discriminate| |].
  - intros H. injection H as <-. now left.
  - destruct (dict_get loads first) as [v|]; [|discriminate].
    intros H. apply min_loop_in in H. simpl. destruct H as [-> | H]; auto.
Qed.

Lemma min_loop_defined (key : string -> option pyfloat) rest :
  forall best bestv,
    (forall h, In h rest -> exists v, key h = Some v) ->
    exists t, min_loop key best bestv rest = Some t.
Proof.
  induction rest as [|item rest IH]; intros best bestv Hk; simpl.
  - now exists best.
  - destruct (Hk item (or_introl eq_refl)) as [w Hw]. rewrite Hw.
    destruct (float_lt w bestv); apply IH; intros h Hh; apply Hk; now right.
Qed.

(** On a dictionary that is not empty [min] raises nothing. *)
Lemma select_target_defined (loads : dict pyfloat) :
  loads <> [] -> exists t, select_target loads = Some t.
Proof.
  intros Hne. unfold select_target, min_by.
  pose proof (dict_get_in_keys loads) as Hk.
  destruct (dict_keys loads) as [|first [|second rest]] eqn:E.
  - destruct loads; [congruence | discriminate E].
  - now exists first.
  - destruct (Hk first (or_introl eq_refl)) as [v ->].
    apply min_loop_defined. intros h Hh. apply Hk. now right.
Qed.

(** C2, amended: for every load-sample mapping with at least one
    finite value and no NaN, the selector returns a host, that host's load is the
    minimum of the mapping, and among hosts of equal minimal load it is
    the first in insertion order. *)
Theorem select_target_first_minimum (loads : dict pyfloat) :
  has_finite loads -> nan_free loads ->
  exists target, select_target loads = Some target /\ first_minimum loads target.
Proof.
  intros [h0 [q0 Hfin]] Hnan.
  assert (Hne : dict_keys loads <> []).
  { intros E. apply dict_get_some_in_keys in Hfin. rewrite E in Hfin. exact Hfin. }
  destruct (min_by_first_minimum (dict_get loads) Hnan (dict_keys loads) Hne
              (dict_get_in_keys loads)) as [t [vt [Hsel [i [Hi [Hv Hall]]]]]].
  exists t. split; [exact Hsel|]. exists i, vt. auto.
Qed.

Lemma select_target_first_minimum_witness :
  has_finite tied /\ nan_free tied /\
  exists target, select_target tied = Some target /\ first_minimum tied target.
Proof.
  assert (Hf : has_finite tied) by (exists "h1", (3 # 4)%Q; reflexivity).
  assert (Hn : nan_free tied).
  { intros h. unfold tied. cbn [dict_get].
    destruct (String.eqb "h1" h); [discriminate|].
    destruct (String.eqb "h2" h); [discriminate|].
    destruct (String.eqb "h3" h); discriminate. }
  split; [exact Hf|]. split; [exact Hn|].
  exact (select_target_first_minimum tied Hf Hn).
Defined.

(** On the tied mapping the second host wins over the third. *)
Example select_target_tied : select_target tied = Some "h2".
Proof. reflexivity. Qed.

(** C2 as stated fails when a sample is NaN: the mapping has a finite
    value, yet the selector keeps the first host, whose NaN load is not
    the minimum (the load 0.5 of the second host is not even compared
    as greater). *)
Lemma select_target_nan_counterexample :
  has_finite nan_first /\
  select_target nan_first = Some "h1" /\
  ~ first_minimum nan_first "h1" /\
  ~ (exists target, select_target nan_first = Some target
                    /\ first_minimum nan_first target).
Proof.
  assert (Hnot : ~ first_minimum nan_first "h1").
  { intros [i [vt [_ [Hv Hall]]]]. simpl in Hv. injection Hv as <-.
    destruct (Hall 0 "h1" PNaN eq_refl eq_refl) as [Hle _]. discriminate Hle. }
  split; [exists "h2", (1 # 2)%Q; reflexivity|].
  split; [reflexivity|]. split; [exact Hnot|].
  intros [target [Hsel Hmin]]. vm_compute in Hsel. injection Hsel as <-.
  exact (Hnot Hmin).
Qed.

End Placement.

(** ** The phases run on the target host *)

Module Phases.
Import Py Installer Spec PyFacts Scenarios Behaviour.
Local Open Scope list_scope.

Section Phases.
Context `{T : Transport}.

Lemma execute_command_runs (c : client) (command : string) (st : state) :
  exists out err w,
    execute_command c command st
    = ((out, err), emit (Ran c command out err) w st).
Proof.
  unfold execute_command.
  destruct (exec_command (world st) c command) as [[out err | msg] w].
  - now exists out, err, w.
  - now exists EmptyString, (exec_error_prefix ++ msg)%string, w.
Qed.

Lemma trace_emit (e : event) (w : World) (st : state) :
  trace (emit e w st) = trace st ++ [e].
Proof. reflexivity. Qed.

Lemma install_step_failed_iff (stderr : string) :
  install_step_failed stderr = true <-> failure_marker stderr.
Proof.
  unfold install_step_failed, failure_marker.
  rewrite orb_true_iff, !contains_lower_iff by reflexivity. reflexivity.
Qed.

Lemma install_step_passed_iff (stderr : string) :
  install_step_failed stderr = false <-> ~ failure_marker stderr.
Proof.
  rewrite <- install_step_failed_iff.
  destruct (install_step_failed stderr); split; intros H;
    try reflexivity; try discriminate; try (intros E; discriminate).
  exfalso. now apply H.
Qed.

(** *** The answers of the hosts *)

Lemma execute_command_answer (c : client) (command : string) (st : state) :
  execute_command c command st
  = ((stdout_of (world st) c command, stderr_of (world st) c command),
     after_commands st c [command]).
Proof.
  unfold execute_command, after_commands, world_after, emit.
  cbn [conversation]. unfold stdout_of, stderr_of.
  destruct (exec_command (world st) c command) as [r w].
  destruct r; reflexivity.
Qed.

Lemma world_after_cons (w : World) (c : client) (command : string)
    (rest : list string) :
  world_after w c (command :: rest)
  = world_after (snd (exec_command w c command)) c rest.
Proof.
  unfold world_after. simpl.
  now destruct (conversation (snd (exec_command w c command)) c rest).
Qed.

Lemma conversation_app (c : client) (l1 l2 : list string) :
  forall w,
    conversation w c (l1 ++ l2)
    = (fst (conversation w c l1)
       ++ fst (conversation (world_after w c l1) c l2),
       world_after (world_after w c l1) c l2).
Proof.
  induction l1 as [|command l1 IH]; intros w.
  - unfold world_after. simpl. now destruct (conversation w c l2).
  - rewrite world_after_cons. simpl. rewrite IH.
    destruct (conversation (snd (exec_command w c command)) c l1). reflexivity.
Qed.

Lemma after_commands_app (st : state) (c : client) (l1 l2 : list string) :
  after_commands (after_commands st c l1) c l2 = after_commands st c (l1 ++ l2).
Proof.
  unfold after_commands, world_after. simpl.
  rewrite conversation_app. simpl. unfold world_after.
  now rewrite <- app_assoc.
Qed.

Lemma after_commands_nil (st : state) (c : client) :
  after_commands st c [] = st.
Proof.
  destruct st. unfold after_commands, world_after. simpl.
  now rewrite app_nil_r.
Qed.

Lemma world_after_commands (st : state) (c : client) (l : list string) :
  world (after_commands st c l) = world_after (world st) c l.
Proof. reflexivity. Qed.

Lemma which_found_iff (stdout : string) :
  which_found stdout = true <-> binary_present stdout.
Proof.
  unfold which_found, binary_present.
  rewrite andb_true_iff, negb_true_iff. split.
  - intros [Ht Hs]. split.
    + intros ->. discriminate Ht.
    + intros Hp. apply startswith_iff in Hp. congruence.
  - intros [Hne Hp]. split.
    + destruct stdout; [congruence | reflexivity].
    + destruct (startswith "which:" stdout) eqn:E; [|reflexivity].
      apply startswith_iff in E. contradiction.
Qed.

Lemma which_found_false_iff (stdout : string) :
  which_found stdout = false <-> ~ binary_present stdout.
Proof.
  rewrite <- which_found_iff.
  destruct (which_found stdout); split; intros H;
    try reflexivity; try discriminate; try (intros E; discriminate).
  exfalso. now apply H.
Qed.

(** *** Install *)

Lemma install_steps_outcome (c : client) (commands : list string) :
  forall st,
    install_outcome c commands (trace st)
      (fst (install_steps c commands st))
      (trace (snd (install_steps c commands st))).
Proof.
  induction commands as [|cmd rest IH]; intros st.
  - exists []. split; [constructor|]. left. simpl.
    now rewrite app_nil_r.
  - simpl. unfold bind.
    destruct (execute_command_runs c cmd st) as [out [err [w ->]]].
    destruct (install_step_failed err) eqn:Hfail.
    + exists []. split; [constructor|]. right. exists out, err.
      split; [reflexivity|]. split; [now apply install_step_failed_iff|].
      split; [simpl; lia|].
      unfold ran_events. simpl. now rewrite combine_nil.
    + destruct (IH (emit (Ran c cmd out err) w st))
        as [passed [Hpassed [[Hres [Hlen Htr]] | [o [e [Hres [He [Hlen Htr]]]]]]]].
      * exists ((out, err) :: passed). split.
        -- constructor; [now apply install_step_passed_iff | exact Hpassed].
        -- left. split; [exact Hres|]. split; [simpl; now rewrite Hlen|].
           rewrite Htr, trace_emit, <- app_assoc. reflexivity.
      * exists ((out, err) :: passed). split.
        -- constructor; [now apply install_step_passed_iff | exact Hpassed].
        -- right. exists o, e.
           split; [exact Hres|]. split; [exact He|]. split; [simpl; lia|].
           rewrite Htr, trace_emit, <- app_assoc. reflexivity.
Qed.

Lemma install_steps_stopped (c : client) (commands : list string) :
  forall st,
    stopped_at_first_failure c commands st
      (fst (install_steps c commands st))
      (snd (install_steps c commands st)).
Proof.
  unfold stopped_at_first_failure.
  induction commands as [|cmd rest IH]; intros st.
  - exists 0. split; [simpl; lia|]. split; [simpl; now rewrite after_commands_nil|].
    left. split; [reflexivity|]. split; [reflexivity|].
    intros [|i] command H; discriminate H.
  - simpl install_steps. unfold bind. rewrite execute_command_answer.
    destruct (install_step_failed (stderr_of (world st) c cmd)) eqn:Hfail.
    + exists 1. split; [simpl; lia|]. split; [reflexivity|].
      right. split; [reflexivity|]. exists 0, cmd.
      split; [reflexivity|]. split; [reflexivity|]. split.
      * now apply install_step_failed_iff.
      * intros i command' Hi. lia.
    + destruct (IH (after_commands st c [cmd]))
        as [n [Hn [Hst [[Hres [Hall Hpass]] | [Hres [k [command
             [Hk [Hnth [Hmark Hbefore]]]]]]]]]].
      * exists (S n). split; [simpl; lia|]. split.
        { rewrite Hst, after_commands_app. reflexivity. }
        left. split; [exact Hres|]. split; [simpl; now rewrite Hall|].
        intros [|i] command Hnth; simpl in Hnth.
        -- injection Hnth as <-. now apply install_step_passed_iff.
        -- simpl firstn. rewrite world_after_cons.
           exact (Hpass i command Hnth).
      * exists (S n). split; [simpl; lia|]. split.
        { rewrite Hst, after_commands_app. reflexivity. }
        right. split; [exact Hres|]. exists (S k), command.
        split; [now rewrite Hk|]. split; [exact Hnth|]. split.
        -- simpl firstn. rewrite world_after_cons. exact Hmark.
        -- intros [|i] command' Hi Hn'; simpl in Hn'.
           ++ injection Hn' as <-. now apply install_step_passed_iff.
           ++ simpl firstn. rewrite world_after_cons.
              apply (Hbefore i command'); [lia | exact Hn'].
Qed.

(** C5: on a Debian-like and on a RHEL-like target the install phase
    asks the steps of the family's list in order and judges each by the
    error stream the host gives for it: it stops right after the first
    step whose error stream contains "failed" or "error" in any letter
    case, reports failure and asks no later step; when no step's error
    stream does, it asks them all and reports success. *)
Theorem install_aborts_at_first_failure (c : client) (st : state) :
  stopped_at_first_failure c debian_commands st
    (fst (install_postgresql c "debian" st))
    (snd (install_postgresql c "debian" st))
  /\
  stopped_at_first_failure c centos_commands st
    (fst (install_postgresql c "centos" st))
    (snd (install_postgresql c "centos" st)).
Proof.
  split.
  - exact (install_steps_stopped c debian_commands st).
  - exact (install_steps_stopped c centos_commands st).
Qed.

(** *** Configure *)

Lemma configure_with_outcome (c : client)
    (pg_hba_path postgresql_conf_path restart_cmd other_host : string)
    (st : state) :
  configure_outcome c pg_hba_path postgresql_conf_path restart_cmd other_host
    (trace st)
    (fst (configure_with c pg_hba_path postgresql_conf_path restart_cmd
            other_host st))
    (trace (snd (configure_with c pg_hba_path postgresql_conf_path
                   restart_cmd other_host st))).
Proof.
  unfold configure_with, bind.
  destruct (execute_command_runs c (sed_cmd postgresql_conf_path) st)
    as [o1 [e1 [w1 ->]]].
  set (st1 := emit _ w1 st).
  destruct (execute_command_runs c (backup_cmd pg_hba_path) st1)
    as [o2 [e2 [w2 ->]]].
  set (st2 := emit _ w2 st1).
  destruct (execute_command_runs c (append_cmd pg_hba_path other_host) st2)
    as [o3 [e3 [w3 ->]]].
  set (st3 := emit _ w3 st2).
  destruct (execute_command_runs c create_user_cmd st3)
    as [out [err [w4 ->]]].
  set (st4 := emit _ w4 st3).
  exists o1, e1, o2, e2, o3, e3, out, err. cbv zeta.
  assert (Htr : trace st4 = trace st ++
            [ Ran c (sed_cmd postgresql_conf_path) o1 e1;
              Ran c (backup_cmd pg_hba_path) o2 e2;
              Ran c (append_cmd pg_hba_path other_host) o3 e3;
              Ran c create_user_cmd out err ]).
  { unfold st4, st3, st2, st1. rewrite !trace_emit, <- !app_assoc. reflexivity. }
  destruct (contains "ERROR" err) eqn:Herr.
  - apply contains_iff in Herr. split; [tauto|]. left. split; [exact Herr|].
    exact Htr.
  - apply contains_false_iff in Herr.
    destruct (execute_command_runs c restart_cmd st4) as [ro [re [w5 ->]]].
    split; [simpl; split; [discriminate | tauto]|].
    right. split; [exact Herr|]. exists ro, re.
    simpl snd. rewrite trace_emit, Htr, <- app_assoc. reflexivity.
Qed.

Lemma configure_postgresql_outcome (c : client) (other_host : string)
    (st : state) :
  configure_outcome c "/etc/postgresql/14/main/pg_hba.conf"
    "/etc/postgresql/14/main/postgresql.conf"
    "systemctl restart postgresql" other_host (trace st)
    (fst (configure_postgresql c "debian" other_host st))
    (trace (snd (configure_postgresql c "debian" other_host st)))
  /\
  configure_outcome c "/var/lib/pgsql/14/data/pg_hba.conf"
    "/var/lib/pgsql/14/data/postgresql.conf"
    "systemctl restart postgresql-14" other_host (trace st)
    (fst (configure_postgresql c "centos" other_host st))
    (trace (snd (configure_postgresql c "centos" other_host st))).
Proof.
  split; apply configure_with_outcome.
Qed.


Lemma configure_with_judged (c : client)
    (pg_hba_path postgresql_conf_path restart_cmd other_host : string)
    (st : state) :
  judged_by_role_creation c pg_hba_path postgresql_conf_path restart_cmd
    other_host st
    (fst (configure_with c pg_hba_path postgresql_conf_path restart_cmd
            other_host st))
    (snd (configure_with c pg_hba_path postgresql_conf_path restart_cmd
            other_host st)).
Proof.
  unfold judged_by_role_creation, configure_with, bind.
  rewrite !execute_command_answer, !after_commands_app. cbn [app].
  rewrite world_after_commands.
  destruct (contains "ERROR"
              (stderr_of
                 (world_after (world st) c
                    [sed_cmd postgresql_conf_path; backup_cmd pg_hba_path;
                     append_cmd pg_hba_path other_host]) c create_user_cmd))
    eqn:Herr.
  - apply contains_iff in Herr. simpl. split; [tauto | reflexivity].
  - apply contains_false_iff in Herr.
    rewrite execute_command_answer, after_commands_app. simpl.
    split; [|reflexivity]. split; [discriminate | tauto].
Qed.

(** C6: on a Debian-like and on a RHEL-like target the configure
    phase reports failure exactly when the error stream the host gives
    for the role-creation command contains "ERROR", letter for letter;
    the three steps before it and the restart after it are asked
    without their answers being looked at. *)
Theorem configure_fails_iff_role_error (c : client)
    (other_host : string) (st : state) :
  judged_by_role_creation c "/etc/postgresql/14/main/pg_hba.conf"
    "/etc/postgresql/14/main/postgresql.conf"
    "systemctl restart postgresql" other_host st
    (fst (configure_postgresql c "debian" other_host st))
    (snd (configure_postgresql c "debian" other_host st))
  /\
  judged_by_role_creation c "/var/lib/pgsql/14/data/pg_hba.conf"
    "/var/lib/pgsql/14/data/postgresql.conf"
    "systemctl restart postgresql-14" other_host st
    (fst (configure_postgresql c "centos" other_host st))
    (snd (configure_postgresql c "centos" other_host st)).
Proof.
  split; apply configure_with_judged.
Qed.

(** *** Verify *)

(** C8: the verification probe asks the test query and reports success
    exactly when the output the host gives for it contains
    "test_connection" and contains "1"; in particular an empty output
    is a failure. *)
Theorem test_succeeds_iff_label_and_one (c : client) (os_type : string)
    (st : state) :
  let out := stdout_of (world st) c test_cmd in
  snd (test_postgresql c os_type st) = after_commands st c [test_cmd] /\
  (fst (test_postgresql c os_type st) = true
   <-> occurs "test_connection" out /\ occurs "1" out) /\
  (fst (test_postgresql c os_type st) = false
   <-> ~ (occurs "test_connection" out /\ occurs "1" out)) /\
  (out = EmptyString -> fst (test_postgresql c os_type st) = false).
Proof.
  cbv zeta. unfold test_postgresql, bind. rewrite execute_command_answer.
  rewrite <- !contains_iff, <- andb_true_iff.
  destruct (contains "test_connection" (stdout_of (world st) c test_cmd)
            && contains "1" (stdout_of (world st) c test_cmd)) eqn:E.
  - split; [reflexivity|]. split; [tauto|]. split.
    + split; [discriminate | intros H; now elim H].
    + intros H. rewrite H in E. discriminate E.
  - split; [reflexivity|].
    split; [simpl; split; intros H; discriminate H|]. split.
    + split; [intros _ H; discriminate H | reflexivity].
    + reflexivity.
Qed.

(** *** OS detection *)

(** C4: the metadata file is read first.  If what the host gives for
    it names Debian in some letter case the answer is Debian-like;
    otherwise, if it names CentOS, AlmaLinux or RHEL in some letter
    case, the answer is RHEL-like; in both cases no other probe is
    asked.  Only when it names neither are the package managers looked
    for, apt-get before yum, the second only when the first is absent.
    The answer is Unknown exactly when the metadata names no family and
    both package managers are absent. *)
Theorem detect_os_probe_order (c : client) (st : state) :
  let metadata := stdout_of (world st) c os_release_cmd in
  let apt_out :=
    stdout_of (world_after (world st) c [os_release_cmd]) c which_apt_cmd in
  let yum_out :=
    stdout_of (world_after (world st) c [os_release_cmd; which_apt_cmd])
      c which_yum_cmd in
  (names_debian metadata ->
   detect_os c st = ("debian", after_commands st c [os_release_cmd])) /\
  (~ names_debian metadata -> names_rhel metadata ->
   detect_os c st = ("centos", after_commands st c [os_release_cmd])) /\
  (~ names_debian metadata -> ~ names_rhel metadata ->
   binary_present apt_out ->
   detect_os c st
   = ("debian", after_commands st c [os_release_cmd; which_apt_cmd])) /\
  (~ names_debian metadata -> ~ names_rhel metadata ->
   ~ binary_present apt_out -> binary_present yum_out ->
   detect_os c st
   = ("centos",
      after_commands st c [os_release_cmd; which_apt_cmd; which_yum_cmd])) /\
  (~ names_debian metadata -> ~ names_rhel metadata ->
   ~ binary_present apt_out -> ~ binary_present yum_out ->
   detect_os c st
   = ("unknown",
      after_commands st c [os_release_cmd; which_apt_cmd; which_yum_cmd])) /\
  (fst (detect_os c st) = "unknown" <->
   ~ names_debian metadata /\ ~ names_rhel metadata /\
   ~ binary_present apt_out /\ ~ binary_present yum_out).
Proof.
  cbv zeta. unfold detect_os, bind. rewrite execute_command_answer.
  set (meta := stdout_of (world st) c os_release_cmd).
  assert (Hdeb : contains "debian" (lower meta) = true <-> names_debian meta)
    by (apply contains_lower_iff; reflexivity).
  assert (Hrhel : contains "centos" (lower meta)
                  || contains "almalinux" (lower meta)
                  || contains "rhel" (lower meta) = true
                  <-> names_rhel meta).
  { unfold names_rhel.
    rewrite !orb_true_iff, !contains_lower_iff by reflexivity. tauto. }
  destruct (contains "debian" (lower meta)) eqn:Ed.
  { assert (Hd : names_debian meta) by now apply Hdeb.
    split; [reflexivity|]. repeat (split; [tauto|]).
    split; [discriminate | tauto]. }
  assert (Hnd : ~ names_debian meta) by (intros H; apply Hdeb in H; discriminate).
  destruct (contains "centos" (lower meta) || contains "almalinux" (lower meta)
            || contains "rhel" (lower meta)) eqn:Er.
  { assert (Hr : names_rhel meta) by now apply Hrhel.
    split; [tauto|]. split; [reflexivity|]. repeat (split; [tauto|]).
    split; [discriminate | tauto]. }
  assert (Hnr : ~ names_rhel meta) by (intros H; apply Hrhel in H; discriminate).
  rewrite execute_command_answer, after_commands_app, world_after_commands.
  cbn [app].
  set (apt := stdout_of (world_after (world st) c [os_release_cmd]) c
                which_apt_cmd).
  destruct (which_found apt) eqn:Ea.
  { apply which_found_iff in Ea.
    split; [tauto|]. split; [tauto|]. split; [reflexivity|].
    repeat (split; [tauto|]). split; [discriminate | tauto]. }
  apply which_found_false_iff in Ea.
  rewrite execute_command_answer, after_commands_app, world_after_commands.
  cbn [app].
  set (yum := stdout_of
                (world_after (world st) c [os_release_cmd; which_apt_cmd]) c
                which_yum_cmd).
  destruct (which_found yum) eqn:Ey.
  - apply which_found_iff in Ey.
    split; [tauto|]. split; [tauto|]. split; [tauto|].
    split; [reflexivity|]. split; [tauto|]. split; [discriminate | tauto].
  - apply which_found_false_iff in Ey.
    split; [tauto|]. split; [tauto|]. split; [tauto|]. split; [tauto|].
    split; [reflexivity|]. split; [tauto | reflexivity].
Qed.
End Phases.

End Phases.

(** ** The whole run *)

Module Run.
Import Py Installer Spec PyFacts Scenarios Placement Phases.
Local Open Scope list_scope.

Lemma split_on_from_length (sep : ascii) (s : string) :
  forall cur, List.length (split_on_from sep cur s) = S (count_char sep s).
Proof.
  induction s as [|c s IH]; intros cur; simpl; [reflexivity|].
  destruct (Ascii.eqb c sep); simpl; now rewrite IH.
Qed.

(** [split] gives one piece more than there are separators. *)
Lemma split_on_length (sep : ascii) (s : string) :
  List.length (split_on sep s) = S (count_char sep s).
Proof. apply split_on_from_length. Qed.

Lemma other_hosts_same (a : string) : other_hosts [a; a] a = [].
Proof. unfold other_hosts. simpl. now rewrite String.eqb_refl. Qed.

Lemma other_hosts_distinct (a b target : string) :
  a <> b -> In target [a; b] ->
  exists peer, other_hosts [a; b] target = [peer] /\ peer <> target
               /\ In peer [a; b].
Proof.
  intros Hne [<- | [<- | []]]; unfold other_hosts; simpl.
  - rewrite String.eqb_refl. simpl.
    destruct (String.eqb b a) eqn:E.
    + apply String.eqb_eq in E. congruence.
    + exists b. simpl. auto.
  - rewrite String.eqb_refl. simpl.
    destruct (String.eqb a b) eqn:E.
    + apply String.eqb_eq in E. congruence.
    + exists a. simpl. auto.
Qed.

Section Run.
Context `{T : Transport}.

Lemma get_host_load_runs (c : client) (st : state) :
  exists load out err w,
    get_host_load c st = (load, emit (Ran c loadavg_cmd out err) w st).
Proof.
  unfold get_host_load, bind.
  destruct (execute_command_runs c loadavg_cmd st) as [out [err [w ->]]].
  eexists _, out, err, w. reflexivity.
Qed.

(** What the connecting loop leaves: the two dictionaries have the
    same keys, all among the hosts; and if no client was stored then
    nothing was opened or run. *)
Lemma connect_hosts_result (hosts : list string) :
  forall clients loads st clients' loads' st',
    connect_hosts hosts clients loads st = (inr (clients', loads'), st') ->
    dict_keys clients = dict_keys loads ->
    dict_keys clients' = dict_keys loads' /\
    (clients' = [] -> clients = [] /\ trace st' = trace st) /\
    (forall h, In h (dict_keys clients') ->
               In h (dict_keys clients) \/ In h hosts).
Proof.
  induction hosts as [|host rest IH];
    intros clients loads st clients' loads' st' Hrun Hkeys; simpl in Hrun.
  - unfold ret in Hrun. injection Hrun as <- <- <-. auto.
  - unfold bind, get_ssh_client in Hrun.
    destruct (connect (world st) host) as [[| |] w].
    + match type of Hrun with
      | context [get_host_load ?c ?s] =>
          destruct (get_host_load_runs c s) as [load [out [err [w' E]]]];
          rewrite E in Hrun
      end.
      apply IH in Hrun; [|now apply dict_keys_set].
      destruct Hrun as [Hk [Hempty Hin]]. split; [exact Hk|]. split.
      * intros E'. destruct (Hempty E') as [Hset _].
        exfalso. exact (dict_set_not_empty _ _ _ Hset).
      * intros h Hh. destruct (Hin h Hh) as [Hc | Hr].
        -- apply dict_keys_set_in in Hc. destruct Hc as [-> | Hc]; simpl; auto.
        -- simpl. tauto.
    + apply IH in Hrun; [|exact Hkeys].
      destruct Hrun as [Hk [Hempty Hin]]. split; [exact Hk|]. split.
      * exact Hempty.
      * intros h Hh. destruct (Hin h Hh); simpl; tauto.
    + discriminate Hrun.
Qed.

Lemma run_after_connect (hosts : list string) (st : state)
    clients loads st1 :
  connect_hosts hosts [] [] st = (inr (clients, loads), st1) ->
  run hosts st
  = if negb (dict_truthy clients) then (inr false, st1)
    else run_selected hosts clients loads st1.
Proof.
  intros H. unfold run, bind. rewrite H.
  destruct (dict_truthy clients); reflexivity.
Qed.


(** C10: with the same host given twice the list of remaining hosts
    is empty once that host is the target, and every run that reaches
    the selection chooses it and ends in [IndexError]; with two
    different hosts the remaining list always holds the other host. *)
Theorem same_host_twice_raises (a : string) (st : state) :
  other_hosts [a; a] a = [] /\
  (forall clients loads st1,
      connect_hosts [a; a] [] [] st = (inr (clients, loads), st1) ->
      clients <> [] ->
      select_target loads = Some a /\
      run [a; a] st = (inl IndexError, st1)) /\
  (forall b target,
      a <> b -> In target [a; b] ->
      exists peer, other_hosts [a; b] target = [peer] /\ peer <> target
                   /\ In peer [a; b]).
Proof.
  split; [apply other_hosts_same|]. split; [|apply other_hosts_distinct].
  intros clients loads st1 Hconn Hne.
  destruct (connect_hosts_result [a; a] [] [] st clients loads st1 Hconn eq_refl)
    as [Hkeys [_ Hin]].
  assert (Hloads : loads <> []).
  { intros ->. destruct clients; [congruence | discriminate Hkeys]. }
  destruct (select_target_defined loads Hloads) as [t Ht].
  assert (t = a) as ->.
  { apply select_target_in_keys in Ht. rewrite <- Hkeys in Ht.
    destruct (Hin t Ht) as [[] | [<- | [<- | []]]]; reflexivity. }
  split; [exact Ht|].
  rewrite (run_after_connect [a; a] st clients loads st1 Hconn).
  destruct clients; [congruence|]. simpl.
  unfold run_selected. rewrite Ht, other_hosts_same. reflexivity.
Qed.

Context `{P : ArgParser}.

(** C9, amended: when argparse ends the process itself (after the help,
    or on a usage error) the exit code is the status argparse gives and
    nothing was done to any host.  When it hands over the arguments,
    the exit code is 0 exactly when the host argument names two hosts
    and the run over them returns success; it is 1 otherwise; and when
    the argument does not split into exactly two hosts (it does not
    hold exactly one comma) the code is 1 and nothing was done to any
    host. *)
Theorem exit_code_zero_iff_success (argv : list string) (st : state) :
  match parse_args argv with
  | ArgsExit status => process argv st = (status, st)
  | ArgsOk hosts_arg _ =>
      let hosts := map strip (split_on "," hosts_arg) in
      let code := fst (process argv st) in
      (code = 0%Z <->
       List.length hosts = 2 /\ fst (run hosts st) = inr true) /\
      (code <> 0%Z -> code = 1%Z) /\
      (List.length hosts <> 2 ->
       code = 1%Z /\ snd (process argv st) = st) /\
      (List.length hosts = 2 <-> count_char "," hosts_arg = 1)
  end.
Proof.
  unfold process, main, bind.
  destruct (parse_args argv) as [hosts_arg key | status]; [|reflexivity].
  cbv zeta.
  assert (Hlen : List.length (map strip (split_on "," hosts_arg)) = 2
                 <-> count_char "," hosts_arg = 1).
  { rewrite length_map, split_on_length. lia. }
  destruct (Nat.eqb (List.length (map strip (split_on "," hosts_arg))) 2) eqn:E.
  - apply Nat.eqb_eq in E. cbn [negb]. cbv beta iota.
    destruct (run (map strip (split_on "," hosts_arg)) st) as [[e | [|]] st'];
      simpl.
    + split; [split; [discriminate | intros [_ H]; discriminate H]|].
      split; [reflexivity|]. split; [tauto | exact Hlen].
    + split; [tauto|]. split; [congruence|]. split; [tauto | exact Hlen].
    + split; [split; [discriminate | intros [_ H]; discriminate H]|].
      split; [reflexivity|]. split; [tauto | exact Hlen].
  - apply Nat.eqb_neq in E. simpl.
    split; [split; [discriminate | tauto]|].
    split; [reflexivity|]. split; [auto | exact Hlen].
Qed.
End Run.



(** C3 on a failing run: both hosts are connected, the system of the
    target is not recognised, the run returns failure, and neither
    session has been closed. *)
Lemma failed_run_leaves_sessions_open :
  fst (@run (scripted unknown_system) ["h1"; "h2"] (start unknown_system))
  = inr false /\
  let tr := trace (snd (@run (scripted unknown_system) ["h1"; "h2"]
                          (start unknown_system))) in
  was_opened tr {| session_id := 0; peer := "h1" |} /\
  was_opened tr {| session_id := 1; peer := "h2" |} /\
  ~ was_closed tr {| session_id := 0; peer := "h1" |} /\
  ~ was_closed tr {| session_id := 1; peer := "h2" |} /\
  ~ all_closed tr.
Proof.
  split; [vm_compute; reflexivity|]. cbv zeta.
  assert (Hopen0 : was_opened
            (trace (snd (@run (scripted unknown_system) ["h1"; "h2"]
                           (start unknown_system))))
            {| session_id := 0; peer := "h1" |})
    by (vm_compute; left; reflexivity).
  assert (Hclosed : forall c,
            ~ was_closed
                (trace (snd (@run (scripted unknown_system) ["h1"; "h2"]
                               (start unknown_system)))) c).
  { intros c H. vm_compute in H.
    repeat (destruct H as [H | H]; [discriminate H|]). exact H. }
  split; [exact Hopen0|].
  split; [vm_compute; do 2 right; left; reflexivity|].
  split; [apply Hclosed|]. split; [apply Hclosed|].
  intros Hall. exact (Hclosed _ (Hall _ Hopen0)).
Qed.

(** The successful run of the healthy hosts does close both sessions. *)
Example healthy_run_closes_sessions :
  fst (@run (scripted healthy) ["h1"; "h2"] (start healthy)) = inr true /\
  let tr := trace (snd (@run (scripted healthy) ["h1"; "h2"] (start healthy))) in
  was_closed tr {| session_id := 0; peer := "h1" |} /\
  was_closed tr {| session_id := 1; peer := "h2" |}.
Proof.
  split; [vm_compute; reflexivity|]. cbv zeta. split.
  - vm_compute. do 14 right. left. reflexivity.
  - vm_compute. do 15 right. left. reflexivity.
Qed.

(** The same host given twice, on the healthy hosts: the run ends in
    [IndexError] after both connections. *)
Example same_host_twice_run :
  fst (@run (scripted healthy) ["h1"; "h1"] (start healthy)) = inl IndexError.
Proof. vm_compute. reflexivity. Qed.

(** C9 as stated fails on the command lines argparse answers itself:
    with [--help] the exit code is 0 although no phase of the workflow
    ran, and with no argument at all, a failure, the exit code is 2;
    in both cases nothing was done to any host. *)
Lemma argparse_exits_without_workflow :
  @process (scripted healthy) command_line ["--help"] (start healthy)
  = (0%Z, start healthy) /\
  @process (scripted healthy) command_line [] (start healthy)
  = (2%Z, start healthy).
Proof. split; reflexivity. Qed.

(** Exit codes of the healthy hosts: two hosts, three hosts. *)
Example exit_codes :
  fst (@process (scripted healthy) command_line ["h1, h2"] (start healthy))
  = 0%Z /\
  @process (scripted healthy) command_line ["h1,h2,h3"] (start healthy)
  = (1%Z, start healthy) /\
  fst (@process (scripted unknown_system) command_line ["h1,h2"]
         (start unknown_system)) = 1%Z.
Proof. repeat split; vm_compute; reflexivity. Qed.

(** The key path changes nothing of what [main] does with the hosts. *)
Example exit_code_with_key :
  @process (scripted healthy) command_line ["--key"; "id_ed25519"; "h1,h2"]
    (start healthy)
  = @process (scripted healthy) command_line ["h1,h2"] (start healthy).
Proof. vm_compute. reflexivity. Qed.

End Run.

(** ** Sessions: which runs close what they opened *)

Module Sessions.
Import Py Installer Spec PyFacts Scenarios Placement Phases Run.
Local Open Scope list_scope.

Section Sessions.
Context `{T : Transport}.

Lemma only_runs_ret {A : Type} (a : A) : only_runs (ret a).
Proof. intros st. exists []. simpl. now rewrite app_nil_r. Qed.

Lemma only_runs_bind {A B : Type} (m : M A) (k : A -> M B) :
  only_runs m -> (forall a, only_runs (k a)) -> only_runs (bind m k).
Proof.
  intros Hm Hk st. unfold bind.
  destruct (Hm st) as [evs1 [H1 F1]].
  destruct (m st) as [a st1]. simpl in H1.
  destruct (Hk a st1) as [evs2 [H2 F2]].
  exists (evs1 ++ evs2). split.
  - now rewrite H2, H1, app_assoc.
  - apply Forall_app. now split.
Qed.

Lemma only_runs_execute (c : client) (command : string) :
  only_runs (execute_command c command).
Proof.
  intros st. destruct (execute_command_runs c command st) as [out [err [w ->]]].
  exists [Ran c command out err]. split; [reflexivity|].
  constructor; [exact I | constructor].
Qed.

Ltac only_runs_step :=
  first
    [ apply only_runs_ret
    | apply only_runs_execute
    | apply only_runs_bind; [|intros [? ?]]
    | apply only_runs_bind; [|intros ?]
    | match goal with
      | |- only_runs (if ?b then _ else _) => destruct b
      end ].

Lemma only_runs_detect_os (c : client) : only_runs (detect_os c).
Proof. unfold detect_os. repeat only_runs_step. Qed.

Lemma only_runs_install_steps (c : client) (commands : list string) :
  only_runs (install_steps c commands).
Proof.
  induction commands as [|cmd rest IH]; simpl.
  - apply only_runs_ret.
  - apply only_runs_bind; [apply only_runs_execute|]. intros [out err].
    destruct (install_step_failed err); [apply only_runs_ret | exact IH].
Qed.

Lemma only_runs_install (c : client) (os_type : string) :
  only_runs (install_postgresql c os_type).
Proof.
  unfold install_postgresql.
  destruct (os_type =? "debian")%string; [apply only_runs_install_steps|].
  destruct (os_type =? "centos")%string;
    [apply only_runs_install_steps | apply only_runs_ret].
Qed.

Lemma only_runs_configure (c : client) (os_type other_host : string) :
  only_runs (configure_postgresql c os_type other_host).
Proof.
  unfold configure_postgresql, configure_with.
  destruct (os_type =? "debian")%string; [repeat only_runs_step|].
  destruct (os_type =? "centos")%string; repeat only_runs_step.
Qed.

Lemma only_runs_test (c : client) (os_type : string) :
  only_runs (test_postgresql c os_type).
Proof. unfold test_postgresql. repeat only_runs_step. Qed.

Lemma close_all_trace (cs : list client) :
  forall st, trace (snd (close_all cs st)) = trace st ++ map Closed cs.
Proof.
  induction cs as [|c cs IH]; intros st; simpl.
  - now rewrite app_nil_r.
  - unfold bind, close. rewrite IH, trace_emit, <- app_assoc. reflexivity.
Qed.

(** The connecting loop closes nothing. *)
Lemma connect_hosts_no_close (hosts : list string) :
  forall clients loads st,
  exists evs,
    trace (snd (connect_hosts hosts clients loads st)) = trace st ++ evs /\
    forall c, ~ In (Closed c) evs.
Proof.
  induction hosts as [|host rest IH]; intros clients loads st; simpl.
  - exists []. split; [now rewrite app_nil_r | intros c []].
  - unfold bind, get_ssh_client.
    destruct (connect (world st) host) as [[| |] w].
    + match goal with
      | |- context [get_host_load ?c ?s] =>
          destruct (get_host_load_runs c s) as [load [out [err [w' ->]]]]
      end.
      match goal with
      | |- context [connect_hosts rest ?cl ?lo ?s] =>
          destruct (IH cl lo s) as [evs [-> Hevs]]
      end.
      eexists (Opened _ :: Ran _ _ _ _ :: evs). split.
      * rewrite trace_emit. simpl. rewrite <- !app_assoc. reflexivity.
      * intros c [H | [H | H]]; [discriminate H | discriminate H |].
        exact (Hevs c H).
    + match goal with
      | |- context [connect_hosts rest ?cl ?lo ?s] =>
          destruct (IH cl lo s) as [evs [-> Hevs]]
      end.
      exists evs. split; [reflexivity | exact Hevs].
    + exists []. split; [simpl; now rewrite app_nil_r | intros c []].
Qed.

Lemma dict_values_set_new {V : Type} (d : dict V) (k : string) (v : V) :
  ~ In k (dict_keys d) -> dict_values (dict_set d k v) = dict_values d ++ [v].
Proof.
  induction d as [|[k' v'] d IH]; simpl; intros Hk; [reflexivity|].
  destruct (String.eqb k' k) eqn:E.
  - apply String.eqb_eq in E. tauto.
  - simpl. rewrite IH; [reflexivity | tauto].
Qed.

(** With hosts that are all different, every session the connecting
    loop opens is stored in [clients]. *)
Lemma connect_hosts_opened (hosts : list string) :
  forall clients loads st clients' loads' st',
    NoDup hosts ->
    (forall h, In h hosts -> ~ In h (dict_keys clients)) ->
    connect_hosts hosts clients loads st = (inr (clients', loads'), st') ->
    exists evs,
      trace st' = trace st ++ evs /\
      (forall c, In (Opened c) evs -> In c (dict_values clients')) /\
      (forall c, In c (dict_values clients) -> In c (dict_values clients')).
Proof.
  induction hosts as [|host rest IH];
    intros clients loads st clients' loads' st' Hnd Hfresh Hrun; simpl in Hrun.
  - unfold ret in Hrun. injection Hrun as <- <- <-.
    exists []. split; [now rewrite app_nil_r|]. split; [intros c []|auto].
  - inversion Hnd as [|? ? Hnotin Hnd']; subst.
    unfold bind, get_ssh_client in Hrun.
    destruct (connect (world st) host) as [[| |] w].
    + match type of Hrun with
      | context [get_host_load ?c ?s] =>
          destruct (get_host_load_runs c s) as [load [out [err [w' E]]]];
          rewrite E in Hrun
      end.
      apply IH in Hrun; [|exact Hnd'|].
      * destruct Hrun as [evs [Htr [Hopened Hkept]]].
        assert (Hvals : forall c v,
                   In c (dict_values clients ++ [v]) ->
                   In c (dict_values (dict_set clients host v))).
        { intros c v Hc. rewrite dict_values_set_new; [exact Hc|].
          apply Hfresh. now left. }
        eexists (Opened _ :: Ran _ _ _ _ :: evs). split.
        -- rewrite Htr, trace_emit. simpl. rewrite <- !app_assoc. reflexivity.
        -- split.
           ++ intros c [H | [H | H]]; [|discriminate H | now apply Hopened].
              injection H as <-. apply Hkept, Hvals, in_or_app. right. now left.
           ++ intros c Hc. apply Hkept, Hvals, in_or_app. now left.
      * intros h Hh Hin. apply dict_keys_set_in in Hin. destruct Hin as [-> | Hin].
        -- exact (Hnotin Hh).
        -- apply (Hfresh h); [now right | exact Hin].
    + apply IH in Hrun; [exact Hrun | exact Hnd'|].
      intros h Hh. apply Hfresh. now right.
    + discriminate Hrun.
Qed.

Lemma is_ran_not_opened evs c : Forall is_ran evs -> ~ In (Opened c) evs.
Proof.
  intros F H. rewrite Forall_forall in F. exact (F _ H).
Qed.

Lemma is_ran_not_closed evs c : Forall is_ran evs -> ~ In (Closed c) evs.
Proof.
  intros F H. rewrite Forall_forall in F. exact (F _ H).
Qed.

(** What [run] does after the selection, on each of its ways out:
    commands only, then, on success alone, the closing of every stored
    session. *)
Lemma run_selected_trace (hosts : list string) clients loads (st : state) :
  exists evs,
    Forall is_ran evs /\
    ((fst (run_selected hosts clients loads st) = inr true /\
      trace (snd (run_selected hosts clients loads st))
      = trace st ++ evs ++ map Closed (dict_values clients))
     \/
     (fst (run_selected hosts clients loads st) <> inr true /\
      trace (snd (run_selected hosts clients loads st)) = trace st ++ evs)).
Proof.
  unfold run_selected.
  assert (Hstop : forall (r : exn + bool), r <> inr true ->
            exists evs, Forall is_ran evs /\
              ((fst (ret r st) = inr true /\
                trace (snd (ret r st))
                = trace st ++ evs ++ map Closed (dict_values clients))
               \/ (fst (ret r st) <> inr true /\
                   trace (snd (ret r st)) = trace st ++ evs))).
  { intros r Hr. exists []. split; [constructor|]. right.
    split; [exact Hr | simpl; now rewrite app_nil_r]. }
  destruct (select_target loads) as [target_host|]; [|apply Hstop; discriminate].
  destruct (other_hosts hosts target_host) as [|other_host others];
    [apply Hstop; discriminate|].
  destruct (dict_get clients target_host) as [target|];
    [|apply Hstop; discriminate].
  clear Hstop. unfold bind.
  destruct (only_runs_detect_os target st) as [ev1 [H1 F1]].
  destruct (detect_os target st) as [os_type st1]. simpl in H1.
  destruct (os_type =? "unknown")%string.
  { exists ev1. split; [exact F1|]. right. split; [discriminate | exact H1]. }
  destruct (only_runs_install target os_type st1) as [ev2 [H2 F2]].
  destruct (install_postgresql target os_type st1) as [ok2 st2]. simpl in H2.
  assert (F12 : Forall is_ran (ev1 ++ ev2)) by (apply Forall_app; now split).
  assert (H12 : trace st2 = trace st ++ ev1 ++ ev2)
    by now rewrite H2, H1, app_assoc.
  destruct ok2; cbn [negb]; cbv beta iota.
  2: { exists (ev1 ++ ev2). split; [exact F12|]. right.
       split; [discriminate | exact H12]. }
  destruct (only_runs_configure target os_type other_host st2) as [ev3 [H3 F3]].
  destruct (configure_postgresql target os_type other_host st2) as [ok3 st3].
  simpl in H3.
  assert (F123 : Forall is_ran ((ev1 ++ ev2) ++ ev3)) by (apply Forall_app; now split).
  assert (H123 : trace st3 = trace st ++ (ev1 ++ ev2) ++ ev3)
    by now rewrite H3, H12, !app_assoc.
  destruct ok3; cbn [negb]; cbv beta iota.
  2: { exists ((ev1 ++ ev2) ++ ev3). split; [exact F123|]. right.
       split; [discriminate | exact H123]. }
  destruct (only_runs_test target os_type st3) as [ev4 [H4 F4]].
  destruct (test_postgresql target os_type st3) as [ok4 st4]. simpl in H4.
  assert (F1234 : Forall is_ran (((ev1 ++ ev2) ++ ev3) ++ ev4))
    by (apply Forall_app; now split).
  assert (H1234 : trace st4 = trace st ++ ((ev1 ++ ev2) ++ ev3) ++ ev4)
    by now rewrite H4, H123, !app_assoc.
  exists (((ev1 ++ ev2) ++ ev3) ++ ev4). split; [exact F1234|].
  destruct ok4; cbn [negb]; cbv beta iota.
  - left. destruct (close_all (dict_values clients) st4) as [u st5] eqn:E5.
    split; [reflexivity|]. simpl.
    pose proof (close_all_trace (dict_values clients) st4) as H5.
    rewrite E5 in H5. simpl in H5. now rewrite H5, H1234, !app_assoc.
  - right. split; [discriminate | exact H1234].
Qed.

(** X14: a run over different hosts that returns success has closed
    every session it opened. *)
Lemma successful_run_closes_sessions (hosts : list string) (st : state) :
  NoDup hosts ->
  fst (run hosts st) = inr true ->
  all_closed (trace st) ->
  all_closed (trace (snd (run hosts st))).
Proof.
  intros Hnd Hok Hold. unfold run, bind in *.
  pose proof (connect_hosts_opened hosts [] [] st) as Hconn.
  destruct (connect_hosts hosts [] [] st) as [[e | [clients loads]] st1];
    [discriminate Hok|].
  destruct (Hconn clients loads st1 Hnd (fun h _ H => H) eq_refl)
    as [ev0 [H0 [Hopened _]]].
  destruct (dict_truthy clients); cbn [negb] in *; cbv beta iota in *;
    [|discriminate Hok].
  destruct (run_selected_trace hosts clients loads st1)
    as [evs [F [[_ Htr] | [Hne _]]]]; [|contradiction].
  rewrite Htr, H0. intros c Hc. unfold was_opened, was_closed in *.
  rewrite !in_app_iff in Hc. rewrite !in_app_iff.
  destruct Hc as [[Hc | Hc] | [Hc | Hc]].
  - left. left. exact (Hold c Hc).
  - right. right. apply in_map. now apply Hopened.
  - exfalso. exact (is_ran_not_opened _ _ F Hc).
  - apply in_map_iff in Hc. destruct Hc as [x [Hx _]]. discriminate Hx.
Qed.

(** X15: a run that does not return success closes nothing: the
    sessions it opened are left open. *)
Lemma unsuccessful_run_closes_nothing (hosts : list string) (st : state) :
  fst (run hosts st) <> inr true ->
  forall c, In (Closed c) (trace (snd (run hosts st))) -> In (Closed c) (trace st).
Proof.
  intros Hne c Hc. unfold run, bind in *.
  destruct (connect_hosts_no_close hosts [] [] st) as [ev0 [H0 Hnc]].
  destruct (connect_hosts hosts [] [] st) as [[e | [clients loads]] st1];
    simpl in H0.
  - simpl in Hc. rewrite H0 in Hc. apply in_app_or in Hc.
    destruct Hc as [Hc | Hc]; [exact Hc | now elim (Hnc c)].
  - destruct (dict_truthy clients); cbn [negb] in *; cbv beta iota in *.
    + destruct (run_selected_trace hosts clients loads st1)
        as [evs [F [[Hok _] | [_ Htr]]]]; [contradiction|].
      rewrite Htr, H0 in Hc. rewrite !in_app_iff in Hc.
      destruct Hc as [[Hc | Hc] | Hc];
        [exact Hc | now elim (Hnc c) | now elim (is_ran_not_closed _ c F)].
    + simpl in Hc. rewrite H0 in Hc. apply in_app_or in Hc.
      destruct Hc as [Hc | Hc]; [exact Hc | now elim (Hnc c)].
Qed.
End Sessions.

End Sessions.

(** ** The probes one by one *)

Module Probes.
Import Py Installer Spec PyFacts Scenarios Behaviour Phases.
Local Open Scope list_scope.

Lemma append_empty_r (s : string) : (s ++ "")%string = s.
Proof. induction s as [|c s IH]; simpl; [reflexivity | now rewrite IH]. Qed.

Lemma rev_string_twice (s : string) :
  forall a b, rev_string a (rev_string b s) = rev_string (s ++ a)%string b.
Proof.
  induction s as [|c s IH]; intros a b; simpl; [reflexivity|].
  now rewrite IH.
Qed.

Lemma rev_string_involutive (s : string) :
  rev_string EmptyString (rev_string EmptyString s) = s.
Proof. rewrite rev_string_twice. simpl. apply append_empty_r. Qed.

Lemma rev_string_truthy (s : string) :
  forall acc, truthy acc = true -> truthy (rev_string acc s) = true.
Proof.
  induction s as [|c s IH]; intros acc H; simpl; [exact H | now apply IH].
Qed.

Lemma append_assoc_string (s t u : string) :
  ((s ++ t) ++ u)%string = (s ++ t ++ u)%string.
Proof. induction s as [|c s IH]; simpl; [reflexivity | now rewrite IH]. Qed.

(** A blank at the head of a text is passed, whichever blank it is. *)
Lemma blank_head (b x : string) :
  In b blanks ->
  lstrip (b ++ x)%string = lstrip x /\
  (forall cur,
      split_ws_from 0 cur (b ++ x)%string
      = if truthy cur
        then rev_string EmptyString cur :: split_ws_from 0 EmptyString x
        else split_ws_from 0 EmptyString x) /\
  truthy b = true /\
  count_char "," b = 0.
Proof.
  intros H. vm_compute in H.
  repeat (destruct H as [<- | H];
          [split; [vm_compute; reflexivity|];
           split; [intros cur; vm_compute; reflexivity|];
           split; reflexivity|]).
  destruct H.
Qed.

(** A plain byte at the head of a text starts no blank. *)
Lemma plain_head (c : ascii) (x : string) :
  plain_byte c = true ->
  lstrip (String c x) = String c x /\
  (forall cur,
      split_ws_from 0 cur (String c x) = split_ws_from 0 (String c cur) x).
Proof.
  destruct c as [[] [] [] [] [] [] [] []]; intros H; try discriminate H;
    (split; [vm_compute; reflexivity | intros cur; vm_compute; reflexivity]).
Qed.

Lemma lstrip_blank_text (pad x : string) :
  blank_text pad -> lstrip (pad ++ x)%string = lstrip x.
Proof.
  induction 1 as [|b s Hb Hs IH]; [reflexivity|].
  rewrite append_assoc_string.
  destruct (blank_head b (s ++ x)%string Hb) as [-> _]. exact IH.
Qed.

Lemma split_ws_blank_text (pad x : string) :
  blank_text pad ->
  split_ws_from 0 EmptyString (pad ++ x)%string
  = split_ws_from 0 EmptyString x.
Proof.
  induction 1 as [|b s Hb Hs IH]; [reflexivity|].
  rewrite append_assoc_string.
  destruct (blank_head b (s ++ x)%string Hb) as [_ [-> _]]. exact IH.
Qed.

Lemma split_ws_all_blank (s : string) :
  blank_text s -> split_ws s = [].
Proof.
  intros H. unfold split_ws.
  rewrite <- (append_empty_r s). now rewrite split_ws_blank_text.
Qed.

(** Reading a word: the bytes pile up in [cur] until a blank or the
    end. *)
Lemma split_ws_from_word (word : string) :
  forall cur, plain_word word = true ->
  (forall b rest, In b blanks ->
     truthy (rev_string cur word) = true ->
     split_ws_from 0 cur (word ++ b ++ rest)%string
     = rev_string EmptyString (rev_string cur word)
       :: split_ws_from 0 EmptyString rest) /\
  (truthy (rev_string cur word) = true ->
   split_ws_from 0 cur word = [rev_string EmptyString (rev_string cur word)]).
Proof.
  induction word as [|c word IH]; intros cur H; simpl in H.
  - split.
    + intros b rest Hb Hcur. simpl in Hcur. simpl append.
      destruct (blank_head b rest Hb) as [_ [-> _]]. simpl. now rewrite Hcur.
    + intros Hcur. simpl in *. now rewrite Hcur.
  - apply andb_true_iff in H as [Hc Hword].
    destruct (IH (String c cur) Hword) as [H1 H2]. split.
    + intros b rest Hb Hcur. simpl append.
      destruct (plain_head c (word ++ b ++ rest)%string Hc) as [_ ->].
      now apply H1.
    + intros Hcur. destruct (plain_head c word Hc) as [_ ->]. now apply H2.
Qed.

Lemma split_ws_first_word (pad word : string) :
  blank_text pad -> plain_word word = true -> word <> EmptyString ->
  (forall b rest, In b blanks ->
     exists more, split_ws (pad ++ word ++ b ++ rest)%string = word :: more)
  /\ split_ws (pad ++ word)%string = [word].
Proof.
  intros Hpad Hword Hne. unfold split_ws.
  assert (Ht : truthy (rev_string EmptyString word) = true).
  { destruct word as [|c word]; [congruence|]. simpl.
    now apply rev_string_truthy. }
  destruct (split_ws_from_word word EmptyString Hword) as [H1 H2]. split.
  - intros b rest Hb. rewrite split_ws_blank_text by exact Hpad.
    rewrite (H1 b rest Hb Ht), rev_string_involutive. eexists. reflexivity.
  - rewrite split_ws_blank_text by exact Hpad.
    now rewrite (H2 Ht), rev_string_involutive.
Qed.

(** The text put before the message of an exception carries none of the
    markers the phases look for. *)
Lemma install_step_failed_prefix (msg : string) :
  install_step_failed (exec_error_prefix ++ msg)%string
  = install_step_failed msg.
Proof. reflexivity. Qed.

Lemma contains_error_prefix (msg : string) :
  contains "ERROR" (exec_error_prefix ++ msg)%string = contains "ERROR" msg.
Proof. reflexivity. Qed.

Section Probes.
Context `{T : Transport}.

Lemma execute_command_raised (c : client) (command : string) (st : state)
    (msg : string) (w : World) :
  exec_command (world st) c command = (ExecRaise msg, w) ->
  execute_command c command st
  = ((EmptyString, (exec_error_prefix ++ msg)%string),
     emit (Ran c command EmptyString (exec_error_prefix ++ msg)%string) w st).
Proof. intros H. unfold execute_command. now rewrite H. Qed.

(** X1: for an OS name other than debian and centos neither the install
    phase nor the configure phase runs any command: both report failure
    and leave the hosts as they were. *)
Theorem unsupported_os_runs_nothing (c : client)
    (os_type other_host : string) (st : state) :
  os_type <> "debian" -> os_type <> "centos" ->
  install_postgresql c os_type st = (false, st) /\
  configure_postgresql c os_type other_host st = (false, st).
Proof.
  intros Hd Hc. apply String.eqb_neq in Hd, Hc.
  unfold install_postgresql, configure_postgresql. now rewrite Hd, Hc.
Qed.

(** X2: the load probe asks the one command [cat /proc/loadavg] and
    never fails.  Its value is infinity when the output the host gives
    is empty or blank, and when the command raised; when the output is
    blanks, then a word of plain ASCII characters, then a blank of any
    kind or the end, its value is what [float] makes of that word,
    infinity if [float] rejects it. *)
Theorem get_host_load_sample (c : client) (st : state) :
  let out := stdout_of (world st) c loadavg_cmd in
  snd (get_host_load c st) = after_commands st c [loadavg_cmd] /\
  (blank_text out -> fst (get_host_load c st) = inf) /\
  (forall pad word b rest,
      blank_text pad -> plain_word word = true ->
      word <> EmptyString -> In b blanks ->
      out = (pad ++ word ++ b ++ rest)%string
      \/ out = (pad ++ word)%string ->
      fst (get_host_load c st) = float_or_inf word) /\
  (forall msg w,
      exec_command (world st) c loadavg_cmd = (ExecRaise msg, w) ->
      fst (get_host_load c st) = inf).
Proof.
  cbv zeta. unfold get_host_load, bind. rewrite execute_command_answer.
  split; [reflexivity|]. cbn [fst ret].
  set (out := stdout_of (world st) c loadavg_cmd). split; [|split].
  - intros Hb. rewrite (split_ws_all_blank out Hb). now destruct (truthy out).
  - intros pad word b rest Hpad Hword Hne Hb Hout.
    destruct (split_ws_first_word pad word Hpad Hword Hne) as [H1 H2].
    assert (Hsplit : exists more, split_ws out = word :: more).
    { destruct Hout as [-> | ->]; [now apply (H1 b rest) | now exists []]. }
    destruct Hsplit as [more Hsplit]. rewrite Hsplit.
    destruct (truthy out) eqn:Ht; [reflexivity|].
    destruct out; [|discriminate Ht].
    unfold split_ws in Hsplit. simpl in Hsplit. discriminate Hsplit.
  - intros msg w Hraise.
    assert (Hout : out = EmptyString).
    { unfold out, stdout_of. now rewrite Hraise. }
    now rewrite Hout.
Qed.

(** X3: when the test query raises instead of answering, the
    verification probe reports failure. *)
Theorem test_fails_when_command_raises (c : client) (os_type : string)
    (st : state) (msg : string) (w : World) :
  exec_command (world st) c test_cmd = (ExecRaise msg, w) ->
  test_postgresql c os_type st
  = (false,
     emit (Ran c test_cmd EmptyString (exec_error_prefix ++ msg)%string) w st).
Proof.
  intros H. unfold test_postgresql, bind.
  now rewrite (execute_command_raised c test_cmd st msg w H).
Qed.

(** X4: an install step that raises instead of answering is judged by
    the message of the exception alone: the phase stops with a failure
    when the message carries "failed" or "error" in some letter case,
    and otherwise goes on with the next step as if the step had
    succeeded. *)
Theorem raised_install_step_judged_by_message (c : client) (cmd : string)
    (rest : list string) (st : state) (msg : string) (w : World) :
  exec_command (world st) c cmd = (ExecRaise msg, w) ->
  (failure_marker msg ->
   install_steps c (cmd :: rest) st
   = (false,
      emit (Ran c cmd EmptyString (exec_error_prefix ++ msg)%string) w st)) /\
  (~ failure_marker msg ->
   install_steps c (cmd :: rest) st
   = install_steps c rest
       (emit (Ran c cmd EmptyString (exec_error_prefix ++ msg)%string) w st)).
Proof.
  intros H. simpl. unfold bind.
  rewrite (execute_command_raised c cmd st msg w H).
  rewrite install_step_failed_prefix. split; intros Hm.
  - apply install_step_failed_iff in Hm. now rewrite Hm.
  - apply install_step_passed_iff in Hm. now rewrite Hm.
Qed.
End Probes.

Lemma unsupported_os_runs_nothing_witness :
  "unknown" <> "debian" /\ "unknown" <> "centos" /\
  @install_postgresql (scripted healthy)
    {| session_id := 0; peer := "h1" |} "unknown" (start healthy)
  = (false, start healthy) /\
  @configure_postgresql (scripted healthy)
    {| session_id := 0; peer := "h1" |} "unknown" "h2" (start healthy)
  = (false, start healthy).
Proof.
  assert (Hd : "unknown" <> "debian") by discriminate.
  assert (Hc : "unknown" <> "centos") by discriminate.
  split; [exact Hd|]. split; [exact Hc|].
  exact (@unsupported_os_runs_nothing (scripted healthy)
           {| session_id := 0; peer := "h1" |} "unknown" "h2" (start healthy)
           Hd Hc).
Defined.

Lemma test_fails_when_command_raises_witness :
  @exec_command (scripted dead_sessions) tt
    {| session_id := 0; peer := "h1" |} test_cmd
  = (ExecRaise "SSH session not active", tt) /\
  fst (@test_postgresql (scripted dead_sessions)
         {| session_id := 0; peer := "h1" |} "debian" (start dead_sessions))
  = false.
Proof.
  split; [reflexivity|].
  exact (f_equal fst
           (@test_fails_when_command_raises (scripted dead_sessions)
              {| session_id := 0; peer := "h1" |} "debian"
              (start dead_sessions) "SSH session not active" tt eq_refl)).
Defined.

Lemma raised_install_step_judged_by_message_witness :
  @exec_command (scripted dead_sessions) tt
    {| session_id := 0; peer := "h1" |} "apt-get update"
  = (ExecRaise "SSH session not active", tt) /\
  ~ failure_marker "SSH session not active" /\
  @install_steps (scripted dead_sessions)
    {| session_id := 0; peer := "h1" |}
    ("apt-get update" :: ["systemctl status postgresql"])
    (start dead_sessions)
  = @install_steps (scripted dead_sessions)
      {| session_id := 0; peer := "h1" |} ["systemctl status postgresql"]
      (@emit (scripted dead_sessions)
         (Ran {| session_id := 0; peer := "h1" |} "apt-get update" EmptyString
            (exec_error_prefix ++ "SSH session not active")%string)
         tt (start dead_sessions)).
Proof.
  assert (Hno : ~ failure_marker "SSH session not active")
    by (apply install_step_passed_iff; reflexivity).
  split; [reflexivity|]. split; [exact Hno|].
  exact (proj2
           (@raised_install_step_judged_by_message (scripted dead_sessions)
              {| session_id := 0; peer := "h1" |} "apt-get update"
              ["systemctl status postgresql"] (start dead_sessions)
              "SSH session not active" tt eq_refl) Hno).
Defined.

(** A load file whose numbers are separated by U+00A0 is read as the
    number before the first of them. *)
Example load_read_before_no_break_space :
  fst (@get_host_load (scripted no_break_spaces)
         {| session_id := 0; peer := "h1" |} (start no_break_spaces))
  = PFin (50 # 100).
Proof. vm_compute. reflexivity. Qed.

(** On sessions that dropped, the install phase reports success: each of
    its steps raised, and no message carried a marker. *)
Example install_succeeds_on_dead_session :
  fst (@install_postgresql (scripted dead_sessions)
         {| session_id := 0; peer := "h1" |} "debian" (start dead_sessions))
  = true.
Proof. vm_compute. reflexivity. Qed.

End Probes.

(** ** More on the choice of the target *)

Module PlacementMore.
Import Py Installer Spec PyFacts Scenarios Behaviour Placement.
Local Open Scope list_scope.

Lemma float_lt_not_nan (x y : pyfloat) :
  float_lt x y = true -> is_nan x = false /\ is_nan y = false.
Proof. destruct x as [|[]|a], y as [|[]|b]; simpl; intros H; auto; discriminate. Qed.

Lemma float_le_lt_trans (x y z : pyfloat) :
  float_le x y = true -> float_lt y z = true -> float_lt x z = true.
Proof.
  destruct x as [|[]|a], y as [|[]|b], z as [|[]|c]; simpl; intros H1 H2;
    try reflexivity; try discriminate.
  apply Qltb_iff. apply Qle_bool_iff in H1. apply Qltb_iff in H2.
  exact (Qle_lt_trans _ _ _ H1 H2).
Qed.

(** The loop of [min] ends on a NaN exactly when it started on one, and
    then it never left its first item. *)
Lemma min_loop_nan (key : string -> option pyfloat) (rest : list string) :
  forall best bestv t,
    key best = Some bestv ->
    min_loop key best bestv rest = Some t ->
    exists vt, key t = Some vt /\ is_nan vt = is_nan bestv /\
               (is_nan bestv = true -> t = best).
Proof.
  induction rest as [|item rest IH]; intros best bestv t Hb; simpl.
  - intros H. injection H as <-. exists bestv. auto.
  - destruct (key item) as [v|] eqn:Hv; [|discriminate].
    destruct (float_lt v bestv) eqn:Hlt.
    + intros H. destruct (float_lt_not_nan _ _ Hlt) as [Hnv Hnb].
      destruct (IH item v t Hv H) as [vt [Hvt [Hnan _]]].
      exists vt. split; [exact Hvt|]. split; [congruence|].
      intros Hn. congruence.
    + intros H. exact (IH best bestv t Hb H).
Qed.

(** X5: the target's sample is NaN exactly when the first sample of the
    mapping is NaN, and in that case the target is the first host,
    whatever the other samples are. *)
Theorem nan_target_iff_first_nan (first : string) (v : pyfloat)
    (rest : dict pyfloat) (target : string) :
  select_target ((first, v) :: rest) = Some target ->
  exists vt,
    dict_get ((first, v) :: rest) target = Some vt /\
    (is_nan vt = true <-> is_nan v = true) /\
    (is_nan v = true -> target = first).
Proof.
  intros Hsel.
  assert (Hfirst : dict_get ((first, v) :: rest) first = Some v)
    by (cbn [dict_get]; now rewrite String.eqb_refl).
  unfold select_target, min_by in Hsel.
  change (dict_keys ((first, v) :: rest)) with (first :: dict_keys rest) in Hsel.
  destruct (dict_keys rest) as [|second others].
  - injection Hsel as <-. exists v. split; [exact Hfirst|]. tauto.
  - rewrite Hfirst in Hsel.
    destruct (min_loop_nan _ _ _ _ _ Hfirst Hsel) as [vt [Hvt [Hnan Hkeep]]].
    exists vt. split; [exact Hvt|]. rewrite Hnan. split; [tauto | exact Hkeep].
Qed.

Lemma nan_target_iff_first_nan_witness :
  select_target (("h1", PNaN) :: [("h2", PFin (1 # 2))]) = Some "h1" /\
  exists vt,
    dict_get (("h1", PNaN) :: [("h2", PFin (1 # 2))]) "h1" = Some vt /\
    (is_nan vt = true <-> is_nan PNaN = true) /\
    (is_nan PNaN = true -> "h1" = "h1").
Proof.
  split; [reflexivity|].
  exact (nan_target_iff_first_nan "h1" PNaN [("h2", PFin (1 # 2))] "h1" eq_refl).
Defined.

(** X6: a host whose load could not be read is chosen only when no load
    could: if no sample is NaN and some sample is below infinity, the
    target's sample is below infinity. *)
Theorem readable_host_preferred (loads : dict pyfloat) :
  nan_free loads ->
  (exists h v, dict_get loads h = Some v /\ float_lt v inf = true) ->
  exists target vt,
    select_target loads = Some target /\
    dict_get loads target = Some vt /\
    float_lt vt inf = true.
Proof.
  intros Hnan [h [v [Hv Hlt]]].
  assert (Hne : dict_keys loads <> []).
  { intros E. apply dict_get_some_in_keys in Hv. rewrite E in Hv. exact Hv. }
  destruct (min_by_first_minimum (dict_get loads) Hnan (dict_keys loads) Hne
              (dict_get_in_keys loads)) as [t [vt [Hsel [i [Hi [Hvt Hall]]]]]].
  exists t, vt. split; [exact Hsel|]. split; [exact Hvt|].
  destruct (In_nth_error _ _ (dict_get_some_in_keys _ _ _ Hv)) as [j Hj].
  destruct (Hall j h v Hj Hv) as [Hle _].
  exact (float_le_lt_trans _ _ _ Hle Hlt).
Qed.

Lemma readable_host_preferred_witness :
  nan_free first_unreadable /\
  (exists h v, dict_get first_unreadable h = Some v /\ float_lt v inf = true) /\
  exists target vt,
    select_target first_unreadable = Some target /\
    dict_get first_unreadable target = Some vt /\
    float_lt vt inf = true.
Proof.
  assert (Hn : nan_free first_unreadable).
  { intros h. unfold first_unreadable. cbn [dict_get].
    destruct (String.eqb "h1" h); [discriminate|].
    destruct (String.eqb "h2" h); [discriminate|].
    destruct (String.eqb "h3" h); discriminate. }
  assert (He : exists h v, dict_get first_unreadable h = Some v
                           /\ float_lt v inf = true)
    by (exists "h2", (PFin (5 # 4)); split; reflexivity).
  split; [exact Hn|]. split; [exact He|].
  exact (readable_host_preferred first_unreadable Hn He).
Defined.

End PlacementMore.

(** ** More on the whole run *)

Module RunMore.
Import Py Installer Spec PyFacts Scenarios Behaviour Placement Phases Run
  Sessions Probes.
Local Open Scope list_scope.

Lemma other_hosts_spec (hosts : list string) (target : string) :
  (forall h, In h (other_hosts hosts target) -> In h hosts /\ h <> target) /\
  (other_hosts hosts target = [] -> forall h, In h hosts -> h = target).
Proof.
  unfold other_hosts. split.
  - intros h Hh. apply filter_In in Hh as [Hin Hne]. split; [exact Hin|].
    apply negb_true_iff, String.eqb_neq in Hne. exact Hne.
  - intros Hempty h Hh. destruct (String.eqb h target) eqn:E.
    + now apply String.eqb_eq.
    + assert (Hin : In h (filter (fun h => negb (h =? target)%string) hosts))
        by (apply filter_In; split; [exact Hh | now rewrite E]).
      rewrite Hempty in Hin. destruct Hin.
Qed.

Lemma dict_values_set_in {V : Type} (d : dict V) (k : string) (v x : V) :
  In x (dict_values (dict_set d k v)) -> x = v \/ In x (dict_values d).
Proof.
  induction d as [|[k' v'] d IH]; simpl.
  - intros [<- | []]. now left.
  - destruct (String.eqb k' k); simpl.
    + intros [<- | H]; auto.
    + intros [<- | H]; auto. destruct (IH H); auto.
Qed.

Lemma dict_get_in_values {V : Type} (d : dict V) (k : string) (v : V) :
  dict_get d k = Some v -> In v (dict_values d).
Proof.
  induction d as [|[k' v'] d IH]; simpl; [discriminate|].
  destruct (String.eqb k' k).
  - intros H. injection H as <-. now left.
  - intros H. right. now apply IH.
Qed.

Lemma keyed_by_peer_set (clients : dict client) (host : string) (c : client) :
  keyed_by_peer clients -> peer c = host ->
  keyed_by_peer (dict_set clients host c).
Proof.
  intros Hk Hc h x Hx. destruct (String.eqb h host) eqn:E.
  - apply String.eqb_eq in E. subst h.
    rewrite dict_get_set_same in Hx. injection Hx as <-. exact Hc.
  - apply String.eqb_neq in E. rewrite dict_get_set_other in Hx by exact E.
    exact (Hk h x Hx).
Qed.

Lemma append_inv_head_string (p a b : string) :
  (p ++ a = p ++ b)%string -> a = b.
Proof.
  induction p as [|x p IH]; simpl; intros H; [exact H|].
  injection H as H. exact (IH H).
Qed.

Lemma append_inv_tail_string (s : string) :
  forall a b : string, (a ++ s = b ++ s)%string -> a = b.
Proof.
  assert (Hlen : forall x y : string,
             String.length (x ++ y)%string
             = String.length x + String.length y).
  { induction x as [|z x IH]; intros y; simpl; [reflexivity|].
    now rewrite IH. }
  induction a as [|x a IH]; intros [|y b] H; simpl in H.
  - reflexivity.
  - apply (f_equal String.length) in H. simpl in H. rewrite Hlen in H. lia.
  - apply (f_equal String.length) in H. simpl in H. rewrite Hlen in H. lia.
  - injection H as -> H. now rewrite (IH b H).
Qed.

(** The access rule appended to an authentication file names one host. *)
Lemma append_cmd_names_one_host (p p' h h' : string) :
  authentication_file p -> authentication_file p' ->
  append_cmd p h = append_cmd p' h' -> h = h'.
Proof.
  unfold append_cmd.
  intros [-> | ->] [-> | ->] H;
    try (vm_compute in H; discriminate H);
    repeat apply append_inv_head_string in H;
    exact (append_inv_tail_string _ _ _ H).
Qed.

Section RunMore.
Context `{T : Transport}.

(** Everything the connecting loop does and leaves. *)
Lemma connect_hosts_shape (hosts : list string) :
  forall clients loads st,
  exists evs,
    trace (snd (connect_hosts hosts clients loads st)) = trace st ++ evs /\
    sampling evs /\
    Forall (fun c => In (peer c) hosts) (opened_by evs) /\
    List.length (opened_by evs) <= List.length hosts /\
    (forall clients' loads',
        fst (connect_hosts hosts clients loads st) = inr (clients', loads') ->
        (keyed_by_peer clients -> keyed_by_peer clients') /\
        (forall c, In c (dict_values clients') ->
                   In c (dict_values clients) \/ In c (opened_by evs))) /\
    (forall e, fst (connect_hosts hosts clients loads st) = inl e ->
               e = ConnectionException).
Proof.
  induction hosts as [|host rest IH]; intros clients loads st.
  - exists []. simpl. rewrite app_nil_r.
    split; [reflexivity|]. split; [constructor|]. split; [constructor|].
    split; [lia|]. split.
    + intros cl lo H. injection H as <- <-. auto.
    + intros e H. discriminate H.
  - simpl. unfold bind, get_ssh_client.
    destruct (connect (world st) host) as [[| |] w].
    + match goal with
      | |- context [get_host_load ?c ?s] =>
          destruct (get_host_load_runs c s) as [load [out [err [w' ->]]]]
      end.
      match goal with
      | |- context [connect_hosts rest ?cl ?lo ?s] =>
          destruct (IH cl lo s) as [evs [Htr [Hs [Hp [Hlen [Hok Hexn]]]]]]
      end.
      eexists (Opened _ :: Ran _ loadavg_cmd out err :: evs).
      split; [rewrite Htr, trace_emit; simpl; now rewrite <- !app_assoc|].
      split; [now constructor|].
      split; [simpl; constructor;
              [now left | eapply Forall_impl; [|exact Hp]; simpl; auto]|].
      split; [simpl; lia|]. split; [|exact Hexn].
      intros cl lo Hres. destruct (Hok cl lo Hres) as [Hkey Hval]. split.
      * intros Hk. apply Hkey. now apply keyed_by_peer_set.
      * intros c Hc. destruct (Hval c Hc) as [H | H].
        -- apply dict_values_set_in in H. destruct H as [-> | H];
             [right; now left | now left].
        -- right. simpl. now right.
    + destruct (IH clients loads
                  {| world := w; next_session := next_session st;
                     trace := trace st |})
        as [evs [Htr [Hs [Hp [Hlen [Hok Hexn]]]]]].
      exists evs. split; [exact Htr|]. split; [exact Hs|].
      split; [eapply Forall_impl; [|exact Hp]; simpl; auto|].
      split; [simpl; lia|]. split; [exact Hok | exact Hexn].
    + exists []. simpl. rewrite app_nil_r.
      split; [reflexivity|]. split; [constructor|]. split; [constructor|].
      split; [lia|]. split.
      * intros cl lo H. discriminate H.
      * intros e H. now injection H as <-.
Qed.

(** X16: before the selection the program does nothing but open
    sessions and ask each, as soon as it is open, for its load: the
    events are pairs of an opening and a [cat /proc/loadavg] on the
    session just opened, every session belongs to one of the given
    hosts, and there are no more sessions than hosts. *)
Theorem connecting_only_samples (hosts : list string) (st : state) :
  exists evs,
    trace (snd (connect_hosts hosts [] [] st)) = trace st ++ evs /\
    sampling evs /\
    Forall (fun c => In (peer c) hosts) (opened_by evs) /\
    List.length (opened_by evs) <= List.length hosts.
Proof.
  destruct (connect_hosts_shape hosts [] [] st)
    as [evs [Htr [Hs [Hp [Hlen _]]]]].
  exists evs. auto.
Qed.

Lemma only_runs_on_ret {A : Type} (c : client) (a : A) : only_runs_on c (ret a).
Proof. intros st. exists []. simpl. now rewrite app_nil_r. Qed.

Lemma only_runs_on_bind {A B : Type} (c : client) (m : M A) (k : A -> M B) :
  only_runs_on c m -> (forall a, only_runs_on c (k a)) ->
  only_runs_on c (bind m k).
Proof.
  intros Hm Hk st. unfold bind.
  destruct (Hm st) as [evs1 [H1 F1]].
  destruct (m st) as [a st1]. simpl in H1.
  destruct (Hk a st1) as [evs2 [H2 F2]].
  exists (evs1 ++ evs2). split.
  - now rewrite H2, H1, app_assoc.
  - apply Forall_app. now split.
Qed.

Lemma only_runs_on_execute (c : client) (command : string) :
  only_runs_on c (execute_command c command).
Proof.
  intros st. destruct (execute_command_runs c command st) as [out [err [w ->]]].
  exists [Ran c command out err]. split; [reflexivity|].
  constructor; [reflexivity | constructor].
Qed.

Ltac only_runs_on_step :=
  first
    [ apply only_runs_on_ret
    | apply only_runs_on_execute
    | apply only_runs_on_bind; [|intros [? ?]]
    | apply only_runs_on_bind; [|intros ?]
    | match goal with
      | |- only_runs_on _ (if ?b then _ else _) => destruct b
      end ].

Lemma only_runs_on_install_steps (c : client) (commands : list string) :
  only_runs_on c (install_steps c commands).
Proof.
  induction commands as [|cmd rest IH]; simpl.
  - apply only_runs_on_ret.
  - apply only_runs_on_bind; [apply only_runs_on_execute|]. intros [out err].
    destruct (install_step_failed err); [apply only_runs_on_ret | exact IH].
Qed.

Lemma only_runs_on_phases (c : client) (other_host : string) :
  only_runs_on c (phases c other_host).
Proof.
  unfold phases, detect_os.
  apply only_runs_on_bind; [repeat only_runs_on_step|]. intros os_type.
  destruct (os_type =? "unknown")%string; [apply only_runs_on_ret|].
  apply only_runs_on_bind.
  { unfold install_postgresql.
    destruct (os_type =? "debian")%string; [apply only_runs_on_install_steps|].
    destruct (os_type =? "centos")%string;
      [apply only_runs_on_install_steps | apply only_runs_on_ret]. }
  intros ok. destruct (negb ok); [apply only_runs_on_ret|].
  apply only_runs_on_bind.
  { unfold configure_postgresql, configure_with.
    destruct (os_type =? "debian")%string; [repeat only_runs_on_step|].
    destruct (os_type =? "centos")%string; repeat only_runs_on_step. }
  intros ok'. destruct (negb ok'); [apply only_runs_on_ret|].
  apply only_runs_on_bind; [|intros ?; apply only_runs_on_ret].
  unfold test_postgresql. repeat only_runs_on_step.
Qed.

(** [run] after the selection is the four phases on the target, then,
    on success alone, the closing loop. *)
Lemma run_selected_phases (hosts : list string) clients loads (st : state)
    target other_host others c :
  select_target loads = Some target ->
  other_hosts hosts target = other_host :: others ->
  dict_get clients target = Some c ->
  run_selected hosts clients loads st
  = match phases c other_host st with
    | (Some true, st') => (inr true, snd (close_all (dict_values clients) st'))
    | (_, st') => (inr false, st')
    end.
Proof.
  intros Hsel Hother Hc. unfold run_selected, phases, bind.
  rewrite Hsel, Hother, Hc.
  destruct (detect_os c st) as [os_type st1].
  destruct (os_type =? "unknown")%string; [reflexivity|].
  destruct (install_postgresql c os_type st1) as [[|] st2]; [|reflexivity].
  cbn [negb]. cbv beta iota.
  destruct (configure_postgresql c os_type other_host st2) as [[|] st3];
    [|reflexivity].
  cbn [negb]. cbv beta iota.
  destruct (test_postgresql c os_type st3) as [[|] st4]; [|reflexivity].
  cbn [negb]. unfold ret. cbv beta iota.
  destruct (close_all (dict_values clients) st4) as [[] st5]. reflexivity.
Qed.

(** The ways through [run]: it stops on an exception of the connecting
    loop, or with no client; or the selection finds no other host; or
    the phases run on the client of the target. *)
Lemma run_cases (hosts : list string) (st : state) :
  (fst (connect_hosts hosts [] [] st) = inl ConnectionException /\
   run hosts st = (inl ConnectionException, snd (connect_hosts hosts [] [] st)))
  \/
  (exists loads,
      connect_hosts hosts [] [] st
      = (inr ([], loads), snd (connect_hosts hosts [] [] st)) /\
      run hosts st = (inr false, snd (connect_hosts hosts [] [] st)))
  \/
  (exists clients loads target,
      connect_hosts hosts [] [] st
      = (inr (clients, loads), snd (connect_hosts hosts [] [] st)) /\
      clients <> [] /\
      select_target loads = Some target /\
      In target (dict_keys clients) /\
      ((other_hosts hosts target = [] /\
        run hosts st = (inl IndexError, snd (connect_hosts hosts [] [] st)))
       \/
       (exists other_host others c,
           other_hosts hosts target = other_host :: others /\
           dict_get clients target = Some c /\
           run hosts st
           = match phases c other_host (snd (connect_hosts hosts [] [] st)) with
             | (Some true, st') =>
                 (inr true, snd (close_all (dict_values clients) st'))
             | (_, st') => (inr false, st')
             end))).
Proof.
  destruct (connect_hosts_shape hosts [] [] st) as [_ [_ [_ [_ [_ [_ Hexn]]]]]].
  destruct (connect_hosts hosts [] [] st) as [[e | [clients loads]] st0] eqn:E.
  - left. rewrite (Hexn e eq_refl) in *. split; [reflexivity|].
    unfold run, bind. now rewrite E.
  - right. rewrite (run_after_connect hosts st clients loads st0 E).
    destruct (connect_hosts_result hosts [] [] st clients loads st0 E eq_refl)
      as [Hkeys _].
    destruct clients as [|kc clients].
    + left. exists loads. split; reflexivity.
    + right. exists (kc :: clients), loads.
      assert (Hloads : loads <> []).
      { intros ->. discriminate Hkeys. }
      destruct (select_target_defined loads Hloads) as [target Ht].
      exists target. split; [reflexivity|]. split; [discriminate|].
      split; [exact Ht|].
      assert (Hin : In target (dict_keys (kc :: clients)))
        by (rewrite Hkeys; now apply select_target_in_keys).
      split; [exact Hin|]. cbn [dict_truthy negb]. cbv beta iota. simpl snd.
      destruct (other_hosts hosts target) as [|other_host others] eqn:Ho.
      * left. split; [reflexivity|]. unfold run_selected. now rewrite Ht, Ho.
      * right. destruct (dict_get_in_keys _ _ Hin) as [c Hc].
        exists other_host, others, c. split; [reflexivity|].
        split; [exact Hc|].
        now apply run_selected_phases with target others.
Qed.

(** X7: the only exceptions that leave [run] are the uncaught exception
    of a connection attempt and the [IndexError] of the peer
    computation; the latter only when every given host is the target.
    In particular [min] never meets an empty dictionary and
    [clients[target_host]] never a missing key. *)
Theorem run_raises_only (hosts : list string) (st : state) (e : exn) :
  fst (run hosts st) = inl e ->
  (e = ConnectionException /\
   fst (connect_hosts hosts [] [] st) = inl ConnectionException)
  \/
  (e = IndexError /\
   exists clients loads target,
     fst (connect_hosts hosts [] [] st) = inr (clients, loads) /\
     select_target loads = Some target /\
     forall h, In h hosts -> h = target).
Proof.
  intros Hrun.
  destruct (run_cases hosts st)
    as [[Hc Hr] | [[loads [Hc Hr]] | [clients [loads [target
         [Hc [Hne [Ht [Hin [[Ho Hr] | [o [os [c [Ho [Hget Hr]]]]]]]]]]]]]]].
  - rewrite Hr in Hrun. injection Hrun as <-. now left.
  - rewrite Hr in Hrun. discriminate Hrun.
  - rewrite Hr in Hrun. injection Hrun as <-. right. split; [reflexivity|].
    exists clients, loads, target. rewrite Hc. split; [reflexivity|].
    split; [exact Ht|]. now apply other_hosts_spec.
  - rewrite Hr in Hrun.
    destruct (phases c o (snd (connect_hosts hosts [] [] st)))
      as [[[|]|] st']; discriminate Hrun.
Qed.

(** What a successful pass through the four phases went through. *)
Lemma phases_success (c : client) (other_host : string) (st st' : state) :
  phases c other_host st = (Some true, st') ->
  exists os_type st1 st2 st3,
    detect_os c st = (os_type, st1) /\
    (os_type = "debian" \/ os_type = "centos") /\
    install_postgresql c os_type st1 = (true, st2) /\
    configure_postgresql c os_type other_host st2 = (true, st3) /\
    st' = after_commands st3 c [test_cmd] /\
    occurs "test_connection" (stdout_of (world st3) c test_cmd) /\
    occurs "1" (stdout_of (world st3) c test_cmd).
Proof.
  unfold phases, bind. intros H.
  destruct (detect_os c st) as [os_type st1].
  destruct (os_type =? "unknown")%string; [discriminate H|].
  destruct (install_postgresql c os_type st1) as [[|] st2] eqn:Ei;
    [|discriminate H].
  cbn [negb] in H. cbv beta iota in H.
  destruct (configure_postgresql c os_type other_host st2) as [[|] st3] eqn:Ec;
    [|discriminate H].
  cbn [negb] in H. cbv beta iota in H.
  unfold test_postgresql, bind in H.
  rewrite execute_command_answer in H.
  destruct (contains "test_connection" (stdout_of (world st3) c test_cmd)
            && contains "1" (stdout_of (world st3) c test_cmd)) eqn:Et;
    [|discriminate H].
  injection H as <-. apply andb_true_iff in Et as [Hl H1].
  apply contains_iff in Hl, H1.
  exists os_type, st1, st2, st3.
  split; [reflexivity|]. split.
  { unfold install_postgresql in Ei.
    destruct (os_type =? "debian")%string eqn:Ed;
      [left; now apply String.eqb_eq|].
    destruct (os_type =? "centos")%string eqn:Ece;
      [right; now apply String.eqb_eq | discriminate Ei]. }
  auto.
Qed.

(** What a successful run went through. *)
Lemma run_success_inv (hosts : list string) (st : state) :
  fst (run hosts st) = inr true ->
  exists clients loads st0 target other_host c os_type st1 st2 st3,
    connect_hosts hosts [] [] st = (inr (clients, loads), st0) /\
    select_target loads = Some target /\
    In other_host hosts /\ other_host <> target /\
    In target hosts /\
    dict_get clients target = Some c /\ peer c = target /\
    detect_os c st0 = (os_type, st1) /\
    (os_type = "debian" \/ os_type = "centos") /\
    install_postgresql c os_type st1 = (true, st2) /\
    configure_postgresql c os_type other_host st2 = (true, st3) /\
    occurs "test_connection" (stdout_of (world st3) c test_cmd) /\
    occurs "1" (stdout_of (world st3) c test_cmd) /\
    snd (run hosts st)
    = snd (close_all (dict_values clients) (after_commands st3 c [test_cmd])).
Proof.
  intros Hrun.
  destruct (run_cases hosts st)
    as [[Hc Hr] | [[loads [Hc Hr]] | [clients [loads [target
         [Hc [Hne [Ht [Hin [[Ho Hr] | [o [os [c [Ho [Hget Hr]]]]]]]]]]]]]]];
    try (rewrite Hr in Hrun; discriminate Hrun).
  rewrite Hr in Hrun |- *.
  destruct (phases c o (snd (connect_hosts hosts [] [] st)))
    as [[[|]|] st'] eqn:Ep; try discriminate Hrun.
  destruct (phases_success c o _ st' Ep)
    as [os_type [st1 [st2 [st3 [Hd [Hos [Hi [Hcf [-> [Hl H1]]]]]]]]]].
  destruct (connect_hosts_shape hosts [] [] st)
    as [ev0 [_ [_ [_ [_ [Hok _]]]]]].
  rewrite Hc in Hok. destruct (Hok clients loads eq_refl) as [Hkeyed _].
  assert (Hpeer : peer c = target).
  { apply Hkeyed; [|exact Hget]. intros h x H. discriminate H. }
  destruct (connect_hosts_result hosts [] [] st clients loads _ Hc eq_refl)
    as [_ [_ Hsub]].
  destruct (proj1 (other_hosts_spec hosts target) o) as [Hoin Hone];
    [rewrite Ho; now left|].
  exists clients, loads, (snd (connect_hosts hosts [] [] st)), target, o, c,
    os_type, st1, st2, st3.
  split; [exact Hc|]. split; [exact Ht|]. split; [exact Hoin|].
  split; [exact Hone|]. split.
  { destruct (Hsub target Hin) as [[] | H]; exact H. }
  split; [exact Hget|]. split; [exact Hpeer|]. split; [exact Hd|].
  split; [exact Hos|]. split; [exact Hi|]. split; [exact Hcf|].
  split; [exact Hl|]. split; [exact H1|].
  reflexivity.
Qed.

(** X8: a run that returns success has connected, selected a target
    whose session belongs to one of the given hosts, detected its
    system, installed and configured on that session with success, and
    then got, from the host itself, an answer to the test query that
    holds "test_connection" and "1"; the state it leaves is the state
    after that query followed by the closing of every session. *)
Theorem success_means_verified (hosts : list string) (st : state) :
  fst (run hosts st) = inr true ->
  exists clients loads st0 target other_host c os_type st1 st2 st3,
    connect_hosts hosts [] [] st = (inr (clients, loads), st0) /\
    select_target loads = Some target /\
    dict_get clients target = Some c /\
    In (peer c) hosts /\
    detect_os c st0 = (os_type, st1) /\
    install_postgresql c os_type st1 = (true, st2) /\
    configure_postgresql c os_type other_host st2 = (true, st3) /\
    occurs "test_connection" (stdout_of (world st3) c test_cmd) /\
    occurs "1" (stdout_of (world st3) c test_cmd) /\
    snd (run hosts st)
    = snd (close_all (dict_values clients) (after_commands st3 c [test_cmd])).
Proof.
  intros Hrun.
  destruct (run_success_inv hosts st Hrun)
    as [clients [loads [st0 [target [o [c [os [st1 [st2 [st3
         [Hc [Ht [_ [_ [Hin [Hget [Hpeer [Hd [_ [Hi [Hcf [Hl [H1 Hfin]]]]]]]]]]]]]]]]]]]]]]].
  exists clients, loads, st0, target, o, c, os, st1, st2, st3.
  rewrite Hpeer. repeat (split; [assumption|]). exact Hfin.
Qed.

(** *** The access rule *)

Lemma only_runs_such_ret {A : Type} (c : client) (P : string -> Prop) (a : A) :
  only_runs_such c P (ret a).
Proof. intros st. exists []. simpl. now rewrite app_nil_r. Qed.

Lemma only_runs_such_bind {A B : Type} (c : client) (P : string -> Prop)
    (m : M A) (k : A -> M B) :
  only_runs_such c P m -> (forall a, only_runs_such c P (k a)) ->
  only_runs_such c P (bind m k).
Proof.
  intros Hm Hk st. unfold bind.
  destruct (Hm st) as [evs1 [H1 F1]].
  destruct (m st) as [a st1]. simpl in H1.
  destruct (Hk a st1) as [evs2 [H2 F2]].
  exists (evs1 ++ evs2). split.
  - now rewrite H2, H1, app_assoc.
  - apply Forall_app. now split.
Qed.

Lemma only_runs_such_execute (c : client) (P : string -> Prop)
    (command : string) :
  P command -> only_runs_such c P (execute_command c command).
Proof.
  intros HP st. destruct (execute_command_runs c command st)
    as [out [err [w ->]]].
  exists [Ran c command out err]. split; [reflexivity|].
  constructor; [split; [reflexivity | exact HP] | constructor].
Qed.

Lemma only_runs_such_install_steps (c : client) (P : string -> Prop)
    (commands : list string) :
  Forall P commands -> only_runs_such c P (install_steps c commands).
Proof.
  induction 1 as [|cmd rest HP _ IH]; simpl.
  - apply only_runs_such_ret.
  - apply only_runs_such_bind; [now apply only_runs_such_execute|].
    intros [out err].
    destruct (install_step_failed err); [apply only_runs_such_ret | exact IH].
Qed.

Ltac rule_holds :=
  first [ intros H; vm_compute in H; discriminate H
        | intros _; eexists; split; [|reflexivity];
          first [now left | now right] ].

Ltac only_runs_such_step :=
  first
    [ apply only_runs_such_ret
    | apply only_runs_such_execute; rule_holds
    | apply only_runs_such_bind; [|intros [? ?]]
    | apply only_runs_such_bind; [|intros ?]
    | match goal with
      | |- only_runs_such _ _ (if ?b then _ else _) => destruct b
      end ].

(** No probe and no install step writes to a file through a here
    document; the configure phase does so once, into the
    authentication file, for the host it was given. *)
Lemma only_runs_such_detect_os (c : client) (other_host : string) :
  only_runs_such c (rule_for other_host) (detect_os c).
Proof. unfold detect_os. repeat only_runs_such_step. Qed.

Lemma only_runs_such_install (c : client) (other_host os_type : string) :
  only_runs_such c (rule_for other_host) (install_postgresql c os_type).
Proof.
  unfold install_postgresql.
  destruct (os_type =? "debian")%string.
  { apply only_runs_such_install_steps. unfold debian_commands.
    repeat (apply Forall_cons; [rule_holds|]). apply Forall_nil. }
  destruct (os_type =? "centos")%string; [|apply only_runs_such_ret].
  apply only_runs_such_install_steps. unfold centos_commands.
  repeat (apply Forall_cons; [rule_holds|]). apply Forall_nil.
Qed.

Lemma only_runs_such_configure (c : client) (other_host os_type : string) :
  only_runs_such c (rule_for other_host)
    (configure_postgresql c os_type other_host).
Proof.
  unfold configure_postgresql, configure_with.
  destruct (os_type =? "debian")%string; [repeat only_runs_such_step|].
  destruct (os_type =? "centos")%string; repeat only_runs_such_step.
Qed.

Lemma sampling_runs_loadavg (evs : list event) :
  sampling evs ->
  forall c command out err,
    In (Ran c command out err) evs -> command = loadavg_cmd.
Proof.
  induction 1 as [|c0 o e evs _ IH]; intros c command out err Hin.
  - destruct Hin.
  - destruct Hin as [H | [H | Hin]].
    + discriminate H.
    + now injection H as _ <- _ _.
    + exact (IH _ _ _ _ Hin).
Qed.

(** The events from the first probe to the test query, on a pass that
    configured with success. *)
Lemma configured_events (c : client) (other_host os_type : string)
    (st0 st1 st2 st3 : state) :
  detect_os c st0 = (os_type, st1) ->
  os_type = "debian" \/ os_type = "centos" ->
  install_postgresql c os_type st1 = (true, st2) ->
  configure_postgresql c os_type other_host st2 = (true, st3) ->
  exists evs,
    trace (after_commands st3 c [test_cmd]) = trace st0 ++ evs /\
    Forall (runs_such c (rule_for other_host)) evs /\
    exists pg_hba_path out err,
      authentication_file pg_hba_path /\
      In (Ran c (append_cmd pg_hba_path other_host) out err) evs.
Proof.
  intros Hd Hos Hi Hcf.
  destruct (only_runs_such_detect_os c other_host st0) as [e1 [T1 F1]].
  destruct (only_runs_such_install c other_host os_type st1) as [e2 [T2 F2]].
  destruct (only_runs_such_configure c other_host os_type st2)
    as [e3 [T3 F3]].
  rewrite Hd in T1. rewrite Hi in T2. rewrite Hcf in T3. simpl in T1, T2, T3.
  assert (Hev : exists pg_hba_path out err,
             authentication_file pg_hba_path /\
             In (Ran c (append_cmd pg_hba_path other_host) out err) e3).
  { destruct (configure_postgresql_outcome c other_host st2) as [Hdeb Hcen].
    destruct Hos as [-> | ->].
    - rewrite Hcf in Hdeb.
      destruct Hdeb as [o1 [x1 [o2 [x2 [o3 [x3 [ou [er [_ H]]]]]]]]].
      exists "/etc/postgresql/14/main/pg_hba.conf"%string, o3, x3.
      split; [now left|]. simpl in H.
      destruct H as [[_ H] | [_ [ro [re H]]]];
        rewrite T3 in H; apply app_inv_head in H; subst e3; simpl; auto.
    - rewrite Hcf in Hcen.
      destruct Hcen as [o1 [x1 [o2 [x2 [o3 [x3 [ou [er [_ H]]]]]]]]].
      exists "/var/lib/pgsql/14/data/pg_hba.conf"%string, o3, x3.
      split; [now right|]. simpl in H.
      destruct H as [[_ H] | [_ [ro [re H]]]];
        rewrite T3 in H; apply app_inv_head in H; subst e3; simpl; auto. }
  destruct Hev as [hba [o3 [x3 [Hhba Hev]]]].
  exists (e1 ++ e2 ++ e3
          ++ [Ran c test_cmd (stdout_of (world st3) c test_cmd)
                (stderr_of (world st3) c test_cmd)]).
  split.
  { unfold after_commands. cbn [trace conversation fst].
    rewrite T3, T2, T1, <- !app_assoc. reflexivity. }
  split.
  { apply Forall_app; split; [exact F1|].
    apply Forall_app; split; [exact F2|].
    apply Forall_app; split; [exact F3|].
    apply Forall_cons; [|apply Forall_nil].
    split; [reflexivity|]. intros H. vm_compute in H. discriminate H. }
  exists hba, o3, x3. split; [exact Hhba|].
  apply in_or_app; right. apply in_or_app; right. apply in_or_app; now left.
Qed.

(** X9: in a run that returns success the access rule is appended, on
    the session of the target, to an authentication file, for a given
    host other than the target; every command of that run that appends
    to a file through a here document is that rule, on that session,
    for that same host; and the rule that would name the target itself
    is never appended to an authentication file. *)
Theorem peer_is_not_the_target (hosts : list string) (st : state) :
  fst (run hosts st) = inr true ->
  exists evs c other_host,
    trace (snd (run hosts st)) = trace st ++ evs /\
    In other_host hosts /\ In (peer c) hosts /\ other_host <> peer c /\
    (exists pg_hba_path out err,
       authentication_file pg_hba_path /\
       In (Ran c (append_cmd pg_hba_path other_host) out err) evs) /\
    (forall c' command out err,
       In (Ran c' command out err) evs ->
       startswith "cat <<EOF >> " command = true ->
       c' = c /\
       exists pg_hba_path,
         authentication_file pg_hba_path /\
         command = append_cmd pg_hba_path other_host) /\
    (forall c' pg_hba_path out err,
       authentication_file pg_hba_path ->
       ~ In (Ran c' (append_cmd pg_hba_path (peer c)) out err) evs).
Proof.
  intros Hrun.
  destruct (run_success_inv hosts st Hrun)
    as [clients [loads [st0 [target [o [c [os [st1 [st2 [st3
         [Hc [_ [Hoin [Hone [Hin [_ [Hpeer [Hd [Hos [Hi [Hcf [_ [_ Hfin]]]]]]]]]]]]]]]]]]]]]]].
  destruct (connect_hosts_shape hosts [] [] st)
    as [ev0 [Htr0 [Hs _]]].
  rewrite Hc in Htr0. simpl in Htr0.
  destruct (configured_events c o os st0 st1 st2 st3 Hd Hos Hi Hcf)
    as [ev1 [Htr1 [F1 Hev]]].
  assert (Hall : forall c' command out err,
             In (Ran c' command out err)
                (ev0 ++ ev1 ++ map Closed (dict_values clients)) ->
             startswith "cat <<EOF >> " command = true ->
             c' = c /\
             exists pg_hba_path,
               authentication_file pg_hba_path /\
               command = append_cmd pg_hba_path o).
  { intros c' command out err Hev' Hcat.
    apply in_app_or in Hev' as [Hev' | Hev'].
    { rewrite (sampling_runs_loadavg ev0 Hs _ _ _ _ Hev') in Hcat.
      vm_compute in Hcat. discriminate Hcat. }
    apply in_app_or in Hev' as [Hev' | Hev'].
    - rewrite Forall_forall in F1. destruct (F1 _ Hev') as [-> Hrule].
      split; [reflexivity | exact (Hrule Hcat)].
    - apply in_map_iff in Hev' as [x [H _]]. discriminate H. }
  exists (ev0 ++ ev1 ++ map Closed (dict_values clients)), c, o.
  split.
  { rewrite Hfin, close_all_trace, Htr1, Htr0, <- !app_assoc. reflexivity. }
  split; [exact Hoin|]. rewrite Hpeer.
  split; [exact Hin|]. split; [exact Hone|]. split.
  { destruct Hev as [hba [o3 [x3 [Hhba Hev]]]]. exists hba, o3, x3.
    split; [exact Hhba|].
    apply in_or_app; right. apply in_or_app; now left. }
  split; [exact Hall|].
  intros c' hba out err Hhba Hev'.
  destruct (Hall _ _ _ _ Hev' eq_refl) as [_ [hba' [Hhba' Heq]]].
  apply Hone. symmetry.
  exact (append_cmd_names_one_host _ _ _ _ Hhba Hhba' Heq).
Qed.

(** *** The discipline of sessions *)

Lemma disciplined_from_sampling (ev0 : list event) :
  sampling ev0 ->
  forall opened rest,
    disciplined_from (rev (opened_by ev0) ++ opened) [] rest ->
    disciplined_from opened [] (ev0 ++ rest).
Proof.
  induction 1 as [|c out err evs Hs IH]; intros opened rest H.
  - exact H.
  - simpl. split; [now left|]. split; [tauto|].
    apply IH. simpl in H. now rewrite <- app_assoc in H.
Qed.

Lemma disciplined_from_runs_on (c : client) (evs : list event) :
  Forall (runs_on c) evs ->
  forall opened rest,
    In c opened ->
    disciplined_from opened [] rest ->
    disciplined_from opened [] (evs ++ rest).
Proof.
  induction 1 as [|e evs He _ IH]; intros opened rest Hc H; [exact H|].
  destruct e as [c' | c' cmd o e' | c']; simpl in He; try contradiction.
  subst c'. simpl. split; [exact Hc|]. split; [tauto|]. now apply IH.
Qed.

Lemma disciplined_from_closing (cs : list client) :
  forall opened closed, disciplined_from opened closed (map Closed cs).
Proof.
  induction cs as [|c cs IH]; intros opened closed; simpl; [exact I | apply IH].
Qed.

Lemma disciplined_from_split (l1 : list event) :
  forall opened closed evs c command out err l2,
    disciplined_from opened closed evs ->
    evs = l1 ++ Ran c command out err :: l2 ->
    (In (Opened c) l1 \/ In c opened) /\
    ~ (In (Closed c) l1 \/ In c closed).
Proof.
  induction l1 as [|x l1 IH]; intros opened closed evs c command out err l2 H ->.
  - simpl in H. destruct H as [Ho [Hc _]]. split; [now right|].
    intros [[] | Hin]. exact (Hc Hin).
  - destruct x as [c0 | c0 cmd0 o0 e0 | c0]; simpl in H.
    + destruct (IH _ _ _ c command out err l2 H eq_refl) as [Ho Hc]. split.
      * destruct Ho as [Ho | [-> | Ho]]; [left; now right | left; now left
                                          | now right].
      * intros [[Hx | Hx] | Hx]; [discriminate Hx | |]; apply Hc; auto.
    + destruct H as [_ [_ H]].
      destruct (IH _ _ _ c command out err l2 H eq_refl) as [Ho Hc]. split.
      * destruct Ho as [Ho | Ho]; [left; now right | now right].
      * intros [[Hx | Hx] | Hx]; [discriminate Hx | |]; apply Hc; auto.
    + destruct (IH _ _ _ c command out err l2 H eq_refl) as [Ho Hc]. split.
      * destruct Ho as [Ho | Ho]; [left; now right | now right].
      * intros [[Hx | Hx] | Hx].
        -- injection Hx as ->. apply Hc. right. now left.
        -- apply Hc. now left.
        -- apply Hc. right. now right.
Qed.

Lemma disciplined_from_start (evs : list event) :
  disciplined_from [] [] evs -> disciplined evs.
Proof.
  intros H l1 c command out err l2 E.
  destruct (disciplined_from_split l1 [] [] evs c command out err l2 H E)
    as [Ho Hc].
  split; [destruct Ho as [Ho | []]; exact Ho | tauto].
Qed.

(** X10: whatever the hosts answer and however the run ends, every
    command of a run is run on a session that the run opened before and
    has not closed since. *)
Theorem run_is_disciplined (hosts : list string) (st : state) :
  exists evs,
    trace (snd (run hosts st)) = trace st ++ evs /\ disciplined evs.
Proof.
  destruct (connect_hosts_shape hosts [] [] st)
    as [ev0 [Htr0 [Hs [_ [_ [Hok _]]]]]].
  assert (Hstop : disciplined ev0).
  { apply disciplined_from_start. rewrite <- (app_nil_r ev0).
    apply disciplined_from_sampling; [exact Hs | exact I]. }
  destruct (run_cases hosts st)
    as [[Hc Hr] | [[loads [Hc Hr]] | [clients [loads [target
         [Hc [Hne [Ht [Hin [[Ho Hr] | [o [os [c [Ho [Hget Hr]]]]]]]]]]]]]]];
    try (rewrite Hr; exists ev0; split; [exact Htr0 | exact Hstop]).
  rewrite Hc in Hok. destruct (Hok clients loads eq_refl) as [_ Hvals].
  assert (Hopened : In c (rev (opened_by ev0) ++ [])).
  { rewrite app_nil_r. apply -> in_rev.
    destruct (Hvals c (dict_get_in_values _ _ _ Hget)) as [[] | H]. exact H. }
  destruct (only_runs_on_phases c o (snd (connect_hosts hosts [] [] st)))
    as [ev1 [Htr1 F1]].
  rewrite Hr.
  destruct (phases c o (snd (connect_hosts hosts [] [] st))) as [r st'].
  simpl in Htr1.
  assert (Hgen : forall cs, disciplined (ev0 ++ ev1 ++ map Closed cs)).
  { intros cs. apply disciplined_from_start.
    apply disciplined_from_sampling; [exact Hs|].
    apply disciplined_from_runs_on with c; [exact F1 | exact Hopened|].
    apply disciplined_from_closing. }
  destruct r as [[|]|].
  - exists (ev0 ++ ev1 ++ map Closed (dict_values clients)). split; [|apply Hgen].
    simpl snd. now rewrite close_all_trace, Htr1, Htr0, <- !app_assoc.
  - exists (ev0 ++ ev1 ++ map Closed []). split; [|apply Hgen].
    simpl. now rewrite app_nil_r, Htr1, Htr0, <- app_assoc.
  - exists (ev0 ++ ev1 ++ map Closed []). split; [|apply Hgen].
    simpl. now rewrite app_nil_r, Htr1, Htr0, <- app_assoc.
Qed.

(** X11: when the first of two different hosts cannot be reached and
    the second can, the second is the target whatever its load sample
    is, the unreachable host is the peer, and the phases run on the
    session of the second host. *)
Theorem single_reachable_host_is_target (a b : string) (st : state)
    (w1 w2 : World) :
  a <> b ->
  connect (world st) a = (ConnRefused, w1) ->
  connect w1 b = (ConnOk, w2) ->
  let c := {| session_id := next_session st; peer := b |} in
  exists load st0,
    connect_hosts [a; b] [] [] st = (inr ([(b, c)], [(b, load)]), st0) /\
    select_target [(b, load)] = Some b /\
    other_hosts [a; b] b = [a] /\
    run [a; b] st
    = match phases c a st0 with
      | (Some true, st') => (inr true, snd (close_all [c] st'))
      | (_, st') => (inr false, st')
      end.
Proof.
  intros Hne Ha Hb c.
  assert (Hconn : exists load st0,
             connect_hosts [a; b] [] [] st
             = (inr ([(b, c)], [(b, load)]), st0)).
  { simpl. unfold bind, get_ssh_client. rewrite Ha. simpl. rewrite Hb.
    match goal with
    | |- context [get_host_load ?c' ?s] =>
        destruct (get_host_load_runs c' s) as [load [out [err [w' ->]]]]
    end.
    eexists load, _. reflexivity. }
  destruct Hconn as [load [st0 Hconn]]. exists load, st0.
  assert (Hother : other_hosts [a; b] b = [a]).
  { unfold other_hosts. simpl. rewrite String.eqb_refl.
    apply String.eqb_neq in Hne. now rewrite Hne. }
  split; [exact Hconn|]. split; [reflexivity|]. split; [exact Hother|].
  rewrite (run_after_connect [a; b] st _ _ st0 Hconn). cbn [dict_truthy negb].
  cbv beta iota.
  apply run_selected_phases with b [].
  - reflexivity.
  - exact Hother.
  - cbn [dict_get]. now rewrite String.eqb_refl.
Qed.
End RunMore.

Lemma run_raises_only_witness :
  fst (@run (scripted healthy) ["h1"; "h1"] (start healthy)) = inl IndexError /\
  ((IndexError = ConnectionException /\
    fst (@connect_hosts (scripted healthy) ["h1"; "h1"] [] [] (start healthy))
    = inl ConnectionException)
   \/
   (IndexError = IndexError /\
    exists clients loads target,
      fst (@connect_hosts (scripted healthy) ["h1"; "h1"] [] [] (start healthy))
      = inr (clients, loads) /\
      select_target loads = Some target /\
      forall h, In h ["h1"; "h1"] -> h = target)).
Proof.
  assert (H : fst (@run (scripted healthy) ["h1"; "h1"] (start healthy))
              = inl IndexError) by (vm_compute; reflexivity).
  split; [exact H|].
  exact (@run_raises_only (scripted healthy) ["h1"; "h1"] (start healthy)
           IndexError H).
Defined.

(** An uncaught exception at the second connection leaves [run] after
    the first host was sampled. *)
Example second_connection_raises :
  fst (@run (scripted second_crashes) ["h1"; "h2"] (start second_crashes))
  = inl ConnectionException.
Proof. vm_compute. reflexivity. Qed.

Lemma success_means_verified_witness :
  fst (@run (scripted healthy) ["h1"; "h2"] (start healthy)) = inr true /\
  exists clients loads st0 target other_host c os_type st1 st2 st3,
    @connect_hosts (scripted healthy) ["h1"; "h2"] [] [] (start healthy)
    = (inr (clients, loads), st0) /\
    select_target loads = Some target /\
    dict_get clients target = Some c /\
    In (peer c) ["h1"; "h2"] /\
    @detect_os (scripted healthy) c st0 = (os_type, st1) /\
    @install_postgresql (scripted healthy) c os_type st1 = (true, st2) /\
    @configure_postgresql (scripted healthy) c os_type other_host st2
    = (true, st3) /\
    occurs "test_connection"
      (@stdout_of (scripted healthy) (world st3) c test_cmd) /\
    occurs "1" (@stdout_of (scripted healthy) (world st3) c test_cmd) /\
    snd (@run (scripted healthy) ["h1"; "h2"] (start healthy))
    = snd (@close_all (scripted healthy) (dict_values clients)
             (@after_commands (scripted healthy) st3 c [test_cmd])).
Proof.
  assert (H : fst (@run (scripted healthy) ["h1"; "h2"] (start healthy))
              = inr true) by (vm_compute; reflexivity).
  split; [exact H|].
  exact (@success_means_verified (scripted healthy) ["h1"; "h2"]
           (start healthy) H).
Defined.

Lemma peer_is_not_the_target_witness :
  fst (@run (scripted one_refuses) ["h1"; "h2"] (start one_refuses))
  = inr true /\
  exists evs c other_host,
    trace (snd (@run (scripted one_refuses) ["h1"; "h2"] (start one_refuses)))
    = trace (start one_refuses) ++ evs /\
    In other_host ["h1"; "h2"] /\ In (peer c) ["h1"; "h2"] /\
    other_host <> peer c /\
    (exists pg_hba_path out err,
       authentication_file pg_hba_path /\
       In (Ran c (append_cmd pg_hba_path other_host) out err) evs) /\
    (forall c' command out err,
       In (Ran c' command out err) evs ->
       startswith "cat <<EOF >> " command = true ->
       c' = c /\
       exists pg_hba_path,
         authentication_file pg_hba_path /\
         command = append_cmd pg_hba_path other_host) /\
    (forall c' pg_hba_path out err,
       authentication_file pg_hba_path ->
       ~ In (Ran c' (append_cmd pg_hba_path (peer c)) out err) evs).
Proof.
  assert (H : fst (@run (scripted one_refuses) ["h1"; "h2"] (start one_refuses))
              = inr true) by (vm_compute; reflexivity).
  split; [exact H|].
  exact (@peer_is_not_the_target (scripted one_refuses) ["h1"; "h2"]
           (start one_refuses) H).
Defined.

Lemma single_reachable_host_is_target_witness :
  "h1" <> "h2" /\
  @connect (scripted one_refuses) tt "h1" = (ConnRefused, tt) /\
  @connect (scripted one_refuses) tt "h2" = (ConnOk, tt) /\
  exists load st0,
    @connect_hosts (scripted one_refuses) ["h1"; "h2"] [] [] (start one_refuses)
    = (inr ([("h2", {| session_id := 0; peer := "h2" |})], [("h2", load)]),
       st0) /\
    select_target [("h2", load)] = Some "h2" /\
    other_hosts ["h1"; "h2"] "h2" = ["h1"] /\
    @run (scripted one_refuses) ["h1"; "h2"] (start one_refuses)
    = match @phases (scripted one_refuses)
              {| session_id := 0; peer := "h2" |} "h1" st0 with
      | (Some true, st') =>
          (inr true,
           snd (@close_all (scripted one_refuses)
                  [{| session_id := 0; peer := "h2" |}] st'))
      | (_, st') => (inr false, st')
      end.
Proof.
  assert (Hne : "h1" <> "h2") by discriminate.
  split; [exact Hne|]. split; [reflexivity|]. split; [reflexivity|].
  exact (@single_reachable_host_is_target (scripted one_refuses) "h1" "h2"
           (start one_refuses) tt tt Hne eq_refl eq_refl).
Defined.

(** The run over the unreachable [h1] and the RHEL-like [h2] names [h1]
    in the access rule it appends on [h2]. *)
Example unreachable_host_is_the_peer :
  In (Ran {| session_id := 0; peer := "h2" |}
          (append_cmd "/var/lib/pgsql/14/data/pg_hba.conf" "h1") "" "")
     (trace (snd (@run (scripted one_refuses) ["h1"; "h2"]
                    (start one_refuses)))).
Proof. vm_compute. do 12 right. left. reflexivity. Qed.

Lemma successful_run_closes_sessions_witness :
  NoDup ["h1"; "h2"] /\
  fst (@run (scripted healthy) ["h1"; "h2"] (start healthy)) = inr true /\
  all_closed (trace (start healthy)) /\
  all_closed (trace (snd (@run (scripted healthy) ["h1"; "h2"] (start healthy)))).
Proof.
  assert (Hnd : NoDup ["h1"; "h2"]).
  { constructor; [intros [H | []]; discriminate H|].
    constructor; [intros [] | constructor]. }
  assert (Hok : fst (@run (scripted healthy) ["h1"; "h2"] (start healthy))
                = inr true) by (vm_compute; reflexivity).
  assert (Hold : all_closed (trace (start healthy))) by (intros c []).
  split; [exact Hnd|]. split; [exact Hok|]. split; [exact Hold|].
  exact (@successful_run_closes_sessions (scripted healthy) ["h1"; "h2"]
           (start healthy) Hnd Hok Hold).
Defined.

Lemma unsuccessful_run_closes_nothing_witness :
  fst (@run (scripted unknown_system) ["h1"; "h2"] (start unknown_system))
  <> inr true /\
  forall c,
    In (Closed c)
       (trace (snd (@run (scripted unknown_system) ["h1"; "h2"]
                      (start unknown_system)))) ->
    In (Closed c) (trace (start unknown_system)).
Proof.
  assert (H : fst (@run (scripted unknown_system) ["h1"; "h2"]
                     (start unknown_system)) <> inr true)
    by (vm_compute; discriminate).
  split; [exact H|].
  exact (@unsuccessful_run_closes_nothing (scripted unknown_system)
           ["h1"; "h2"] (start unknown_system) H).
Defined.

End RunMore.

(** ** The host argument *)

Module HostList.
Import Py Installer Spec PyFacts Scenarios Behaviour Phases Run Probes.
Local Open Scope list_scope.

Lemma count_char_app (sep : ascii) (s t : string) :
  count_char sep (s ++ t)%string = count_char sep s + count_char sep t.
Proof.
  induction s as [|c s IH]; simpl; [reflexivity|]. rewrite IH. lia.
Qed.

Lemma count_comma_blank_text (s : string) :
  blank_text s -> count_char "," s = 0.
Proof.
  induction 1 as [|b s Hb _ IH]; [reflexivity|].
  rewrite count_char_app, IH.
  destruct (blank_head b EmptyString Hb) as [_ [_ [_ ->]]]. reflexivity.
Qed.

Lemma count_comma_host_name (h : string) :
  host_name h = true -> count_char "," h = 0.
Proof.
  induction h as [|c h IH]; simpl; [reflexivity|]. intros H.
  apply andb_true_iff in H as [H Hh].
  apply andb_true_iff in H as [_ Hc].
  apply negb_true_iff in Hc. rewrite Hc. exact (IH Hh).
Qed.

Lemma host_name_plain (h : string) :
  host_name h = true -> plain_word h = true.
Proof.
  induction h as [|c h IH]; simpl; [reflexivity|]. intros H.
  apply andb_true_iff in H as [H Hh].
  apply andb_true_iff in H as [Hp _].
  now rewrite Hp, (IH Hh).
Qed.

Lemma split_on_from_no_sep (sep : ascii) (s : string) :
  count_char sep s = 0 ->
  forall cur,
    split_on_from sep cur s = [rev_string EmptyString (rev_string cur s)].
Proof.
  induction s as [|c s IH]; simpl; intros H cur; [reflexivity|].
  destruct (Ascii.eqb c sep); [discriminate H|]. now apply IH.
Qed.

Lemma split_on_from_at_sep (sep : ascii) (a b : string) :
  count_char sep a = 0 ->
  forall cur,
    split_on_from sep cur (a ++ String sep b)%string
    = rev_string EmptyString (rev_string cur a)
      :: split_on_from sep EmptyString b.
Proof.
  induction a as [|c a IH]; simpl; intros H cur.
  - now rewrite Ascii.eqb_refl.
  - destruct (Ascii.eqb c sep); [discriminate H|]. now apply IH.
Qed.

(** Splitting at the one separator gives back the two parts. *)
Lemma split_on_two (sep : ascii) (a b : string) :
  count_char sep a = 0 -> count_char sep b = 0 ->
  split_on sep (a ++ String sep b)%string = [a; b].
Proof.
  intros Ha Hb. unfold split_on.
  rewrite (split_on_from_at_sep sep a b Ha), (split_on_from_no_sep sep b Hb).
  now rewrite !rev_string_involutive.
Qed.

Lemma lstrip_all_blank (pad : string) :
  blank_text pad -> lstrip pad = EmptyString.
Proof.
  intros H. rewrite <- (append_empty_r pad).
  now rewrite (lstrip_blank_text pad EmptyString H).
Qed.

Lemma rstrip_cons (c : ascii) (s : string) :
  rstrip (String c s)
  = match lstrip (String c s) with
    | EmptyString => EmptyString
    | String _ _ => String c (rstrip s)
    end.
Proof. reflexivity. Qed.

Lemma rstrip_all_blank (pad : string) :
  blank_text pad -> rstrip pad = EmptyString.
Proof.
  intros H. destruct pad as [|c pad]; [reflexivity|].
  now rewrite rstrip_cons, (lstrip_all_blank _ H).
Qed.

(** [rstrip] takes the blanks off the end of a plain word. *)
Lemma rstrip_plain_word (word pad : string) :
  plain_word word = true -> blank_text pad ->
  rstrip (word ++ pad)%string = word.
Proof.
  intros Hw Hp. induction word as [|c word IH]; cbn [append].
  - exact (rstrip_all_blank pad Hp).
  - cbn [plain_word] in Hw. apply andb_true_iff in Hw as [Hc Hw].
    rewrite rstrip_cons.
    destruct (plain_head c (word ++ pad)%string Hc) as [-> _].
    now rewrite (IH Hw).
Qed.

(** [strip] takes the blanks off both ends of a plain word. *)
Lemma strip_padded (p1 word p2 : string) :
  blank_text p1 -> blank_text p2 -> plain_word word = true ->
  strip (p1 ++ word ++ p2)%string = word.
Proof.
  intros H1 H2 Hw. unfold strip. rewrite (lstrip_blank_text p1 _ H1).
  destruct word as [|c word].
  - cbn [append]. now rewrite (lstrip_all_blank p2 H2).
  - assert (Hc : plain_byte c = true).
    { cbn [plain_word] in Hw. now apply andb_true_iff in Hw as [Hc _]. }
    cbn [append].
    destruct (plain_head c (word ++ p2)%string Hc) as [-> _].
    exact (rstrip_plain_word (String c word) p2 Hw H2).
Qed.

Section HostList.
Context `{T : Transport} `{P : ArgParser}.

(** X12: when the command line yields a host argument made of two names
    of plain non-blank characters without a comma, around one comma,
    each name with any blanks of Python around it, the argument is read
    as the list of the two names, and [main] is [run] over that list
    with its result as the value returned. *)
Theorem hosts_argument_parsed (argv : list string) (key : option string)
    (p1 h1 p2 p3 h2 p4 : string) (st : state) :
  blank_text p1 -> blank_text p2 -> blank_text p3 -> blank_text p4 ->
  host_name h1 = true -> host_name h2 = true ->
  let hosts_arg := ((p1 ++ h1 ++ p2) ++ String "," (p3 ++ h2 ++ p4))%string in
  parse_args argv = ArgsOk hosts_arg key ->
  map strip (split_on "," hosts_arg) = [h1; h2] /\
  main argv st
  = (main_result (fst (run [h1; h2] st)), snd (run [h1; h2] st)).
Proof.
  intros B1 B2 B3 B4 N1 N2 hosts_arg Hargs.
  assert (Hhosts : map strip (split_on "," hosts_arg) = [h1; h2]).
  { unfold hosts_arg. rewrite split_on_two.
    - cbn [map].
      now rewrite !strip_padded by (assumption || now apply host_name_plain).
    - rewrite !count_char_app, (count_comma_host_name h1 N1),
        !count_comma_blank_text by assumption.
      reflexivity.
    - rewrite !count_char_app, (count_comma_host_name h2 N2),
        !count_comma_blank_text by assumption.
      reflexivity. }
  split; [exact Hhosts|].
  unfold main. rewrite Hargs. cbv zeta. rewrite Hhosts.
  cbn [List.length Nat.eqb negb]. unfold bind, ret.
  destruct (run [h1; h2] st) as [[e | ok] st']; reflexivity.
Qed.
End HostList.

Lemma hosts_argument_parsed_witness :
  blank_text " " /\ blank_text (utf8 160) /\ blank_text "" /\
  host_name "h1" = true /\ host_name "h2" = true /\
  @parse_args command_line [(" h1" ++ utf8 160 ++ ", h2")%string]
  = ArgsOk ((" " ++ "h1" ++ utf8 160) ++ String "," (" " ++ "h2" ++ ""))%string
      None /\
  map strip (split_on "," (" h1" ++ utf8 160 ++ ", h2")%string)
  = ["h1"; "h2"] /\
  @main (scripted healthy) command_line
    [(" h1" ++ utf8 160 ++ ", h2")%string] (start healthy)
  = (main_result (fst (@run (scripted healthy) ["h1"; "h2"] (start healthy))),
     snd (@run (scripted healthy) ["h1"; "h2"] (start healthy))).
Proof.
  assert (Hnil : blank_text "") by constructor.
  assert (Hsp : blank_text " ").
  { apply (blank_text_cons " " "" ); [|exact Hnil].
    vm_compute. tauto. }
  assert (Hnb : blank_text (utf8 160)).
  { apply (blank_text_cons (utf8 160) ""); [|exact Hnil].
    vm_compute. tauto. }
  split; [exact Hsp|]. split; [exact Hnb|]. split; [exact Hnil|].
  split; [reflexivity|]. split; [reflexivity|]. split; [reflexivity|].
  exact (@hosts_argument_parsed (scripted healthy) command_line
           [(" h1" ++ utf8 160 ++ ", h2")%string] None
           " " "h1" (utf8 160) " " "h2" "" (start healthy)
           Hsp Hnb Hsp Hnil eq_refl eq_refl eq_refl).
Defined.

(** A no-break space around a host name is taken off as Python does. *)
Example no_break_space_is_stripped :
  map strip (split_on "," ("h1" ++ utf8 160 ++ "," ++ utf8 8195 ++ "h2")%string)
  = ["h1"; "h2"].
Proof. vm_compute. reflexivity. Qed.

End HostList.

(** ** The restart at the end of the configure phase *)

Module Restart.
Import Py Installer Spec PyFacts Scenarios Behaviour Phases.
Local Open Scope list_scope.

Section Restart.
Context `{T : Transport}.



End Restart.

End Restart.
